(** * Road-network data preparation: scripts/generate_network.py and
      scripts/filter_network.py

    A shallow embedding of the two scripts and the properties of the
    node-link document they write.

    Modelling conventions.
    - A Python [str] holding an OSM id is a [string]; a label built with
      [chr] is a list of Unicode code points ([pystr]).
    - A number stored in the document is a rational ([Q]): the filter only
      compares such numbers, which is exact.  The runs of the fetcher, in
      [Fetcher], carry out its arithmetic on these rationals exactly; they
      serve for what does not depend on the values of the floats (which
      nodes and edges are written, ids, labels, counts, outcomes).  The
      arithmetic of lines 43-85 as Python performs it, on binary64 floats
      with rounding, overflow, [inf] and NaN, is in [IEEE] and
      [FetcherIEEE]; what is stated about the values of the coordinates is
      stated there.  Records are compared with Leibniz equality, values of
      [Q] with [<=], [<] and [==].
    - An exception is a value of [exn]; a computation that may raise lives
      in the monad [result], one that also prints, reads or writes the data
      file or draws random numbers in the monad [Script].
    - The file scripts/network_data.json is modelled by the document it
      holds ([json.load] after [json.dump] is the identity on documents). *)

From Stdlib Require Import QArith Qround Qpower Lqa DecimalString.
From Stdlib Require DecimalPos DecimalZ.
From stdpp Require Import base tactics option list gmap strings.

Open Scope Z_scope.

(** ** Exceptions *)

Inductive exn : Set :=
  | ValueError
  | ZeroDivisionError
  | KeyError
  | FileNotFoundError.

Inductive result (A : Type) : Type :=
  | Ok (a : A)
  | Raise (e : exn).
Arguments Ok {A} a.
Arguments Raise {A} e.

#[export] Instance result_ret : MRet result := λ A a, Ok a.
#[export] Instance result_bind : MBind result := λ A B f m,
  match m with
  | Ok a => f a
  | Raise e => Raise e
  end.

(** ** The node-link document (spec section 3) *)

Definition codepoint := Z.
Definition pystr := list codepoint.

Record Node := mkNode {
  id : string;
  x : Q;
  y : Q;
  label : pystr
}.

Record Edge := mkEdge {
  from : string;
  to : string;
  weight : Q
}.

Record Document := mkDocument {
  nodes : list Node;
  edges : list Edge
}.

(** ** Python built-ins on numbers *)

#[export] Instance Qle_decision (a b : Q) : Decision (a <= b)%Q :=
  match Qlt_le_dec b a with
  | left H => right (Qlt_not_le _ _ H)
  | right H => left H
  end.

#[export] Instance Qlt_decision (a b : Q) : Decision (a < b)%Q :=
  match Qlt_le_dec a b with
  | left H => left H
  | right H => right (Qle_not_lt _ _ H)
  end.

#[export] Instance Qeq_decision (a b : Q) : Decision (a == b)%Q := Qeq_dec a b.

(** [min(a, b)] and [max(a, b)]: the first argument is kept unless the
    second is strictly smaller (larger). *)
Definition min2 (a b : Q) : Q := if decide (b < a)%Q then b else a.
Definition max2 (a b : Q) : Q := if decide (a < b)%Q then b else a.

(** [min(l)] and [max(l)] of a list: [ValueError] on the empty list,
    otherwise the first extremal item. *)
Definition py_min (l : list Q) : result Q :=
  match l with
  | [] => Raise ValueError
  | a :: l' => Ok (foldl min2 a l')
  end.

Definition py_max (l : list Q) : result Q :=
  match l with
  | [] => Raise ValueError
  | a :: l' => Ok (foldl max2 a l')
  end.

(** [a / b] on numbers. *)
Definition py_div (a b : Q) : result Q :=
  if decide (b == 0)%Q then Raise ZeroDivisionError else Ok (a / b)%Q.

(** Rounding to the nearest integer, ties to the even neighbour. *)
Definition round_half_even (q : Q) : Z :=
  let f := Qfloor q in
  let r := (q - inject_Z f)%Q in
  if decide (r < 1 # 2)%Q then f
  else if decide (1 # 2 < r)%Q then f + 1
  else if Z.even f then f else f + 1.

Fixpoint pow10 (n : nat) : positive :=
  match n with
  | O => 1%positive
  | S n' => (10 * pow10 n')%positive
  end.

(** [round(v, ndigits)]: the multiple of [10 ^ -ndigits] nearest to [v]. *)
Definition py_round (v : Q) (ndigits : nat) : Q :=
  round_half_even (v * inject_Z (Z.pos (pow10 ndigits))) # pow10 ndigits.

(** [str(n)] of an [int]. *)
Definition str (n : Z) : string := NilZero.string_of_int (Z.to_int n).

(** [chr(i)]: the one-character string of code point [i]. *)
Definition chr (i : Z) : result pystr :=
  if decide (0 ≤ i < 1114112) then Ok [i] else Raise ValueError.

(** ** The process environment: the data file, standard output and the
    random generator *)

Inductive Line : Type :=
  | FetchingOSM
  | NetworkHas (n e : nat)
  | Created (n e : nat)
  | SavedTo
  | NodeCount (n : nat)
  | EdgeCount (e : nat)
  | MinimumX (min_x : Q)
  | Original (n e : nat)
  | Filtered (n e : nat)
  | FilteredSaved.

Record World := mkWorld {
  file : option Document;      (* scripts/network_data.json *)
  stdout : list Line;
  entropy : nat → Q;           (* the values [random.random()] will return *)
  drawn : nat                  (* how many of them were consumed *)
}.

Definition Script (A : Type) : Type := World → result A * World.

#[export] Instance Script_ret : MRet Script := λ A a w, (Ok a, w).
#[export] Instance Script_bind : MBind Script := λ A B f m w,
  match m w with
  | (Ok a, w') => f a w'
  | (Raise e, w') => (Raise e, w')
  end.

Definition lift {A} (r : result A) : Script A := λ w, (r, w).

Definition print (l : Line) : Script unit := λ w,
  (Ok (), mkWorld (file w) (stdout w ++ [l]) (entropy w) (drawn w)).

(** [json.load] of the data file. *)
Definition load : Script Document := λ w,
  match file w with
  | Some data => (Ok data, w)
  | None => (Raise FileNotFoundError, w)
  end.

(** [json.dump] to the data file opened with mode 'w'. *)
Definition dump (data : Document) : Script unit := λ w,
  (Ok (), mkWorld (Some data) (stdout w) (entropy w) (drawn w)).

(** [random.random()]. *)
Definition random : Script Q := λ w,
  (Ok (entropy w (drawn w)),
   mkWorld (file w) (stdout w) (entropy w) (S (drawn w))).

(** [random.uniform(a, b)] is [a + (b - a) * random()]. *)
Definition uniform (a b : Q) : Script Q :=
  r ← random; mret (a + (b - a) * r)%Q.

(** A [for] loop threading the variables [s] it assigns. *)
Fixpoint for_each `{MBind M, MRet M} {A S : Type}
    (body : S → A → M S) (l : list A) (s : S) : M S :=
  match l with
  | [] => mret s
  | a :: l' => s' ← body s a; for_each body l' s'
  end.

(** [enumerate(l)] from index [i]. *)
Fixpoint enumerate_from {A} (i : Z) (l : list A) : list (Z * A) :=
  match l with
  | [] => []
  | a :: l' => (i, a) :: enumerate_from (i + 1) l'
  end.
Definition enumerate {A} (l : list A) : list (Z * A) := enumerate_from 0 l.

(** ** scripts/filter_network.py *)

Module Filter.

Definition ref_nodes : list string :=
  ["3339821648"; "250691723"; "250691724"; "250698924"; "250698925";
   "250698926"; "250699982"; "250699983"; "250702474"; "250700248"]%string.

(** Line 13. *)
Definition ref_x_coords (data : Document) : list Q :=
  x <$> filter (λ n, id n ∈ ref_nodes) (nodes data).

(** Line 18. *)
Definition nodes_to_keep (min_x : Q) (data : Document) : list Node :=
  filter (λ n, (min_x <= x n)%Q) (nodes data).

(** Line 19. *)
Definition node_ids_to_keep (min_x : Q) (data : Document) : gset string :=
  list_to_set (id <$> nodes_to_keep min_x data).

(** Lines 22-23. *)
Definition edges_to_keep (min_x : Q) (data : Document) : list Edge :=
  filter (λ e, from e ∈ node_ids_to_keep min_x data
               ∧ to e ∈ node_ids_to_keep min_x data) (edges data).

(** Lines 29-32. *)
Definition filtered_data (min_x : Q) (data : Document) : Document :=
  {| nodes := nodes_to_keep min_x data; edges := edges_to_keep min_x data |}.

(** Lines 13-32 on the loaded document: the threshold and the filtered
    document. *)
Definition filter_network (data : Document) : result (Q * Document) :=
  min_x ← py_min (ref_x_coords data);
  mret (min_x, filtered_data min_x data).

(** The whole script. *)
Definition main : Script unit :=
  data ← load;
  '(min_x, filtered) ← lift (filter_network data);
  print (MinimumX min_x);;
  print (Original (length (nodes data)) (length (edges data)));;
  print (Filtered (length (nodes filtered)) (length (edges filtered)));;
  dump filtered;;
  print FilteredSaved.

(** Sample documents: the scenario of spec section 8 with the reference id
    "250691723" in the place of "2", and a document without any reference
    id. *)
Definition sample : Document :=
  mkDocument
    [mkNode "1" 0 0 [65]; mkNode "250691723" 5 0 [66]; mkNode "3" 10 0 [67]]
    [mkEdge "1" "3" (15 # 10); mkEdge "250691723" "3" 2;
     mkEdge "3" "250691723" (201 # 10)].

Definition sample_kept : Document :=
  mkDocument
    [mkNode "250691723" 5 0 [66]; mkNode "3" 10 0 [67]]
    [mkEdge "250691723" "3" 2; mkEdge "3" "250691723" (201 # 10)].

Definition sample_no_ref : Document :=
  mkDocument [mkNode "1" 0 0 [65]; mkNode "2" 5 0 [66]] [mkEdge "1" "2" 3].

Definition world_of (data : Document) : World :=
  mkWorld (Some data) [] (λ _, 0%Q) 0.

End Filter.

(** ** scripts/generate_network.py *)

Module Fetcher.

(** The attribute dict of a raw node: its 'x' and 'y' entries, when
    present. *)
Record NodeData := mkNodeData {
  data_x : option Q;
  data_y : option Q
}.

(** The graph returned by [ox.graph_from_bbox]: what [G.nodes(data=True)]
    and [G.edges(data=True)] iterate over, in order (OSM ids are integers;
    the attribute dict of an edge is not read). *)
Record Graph := mkGraph {
  G_nodes : list (Z * NodeData);
  G_edges : list (Z * Z)
}.

(** [d[k] = v] on a dict kept in insertion order: an existing key keeps its
    place, a new one goes last. *)
Fixpoint dict_set {V} (d : list (Z * V)) (k : Z) (v : V) : list (Z * V) :=
  match d with
  | [] => [(k, v)]
  | (k', v') :: d' =>
      if decide (k = k') then (k', v) :: d' else (k', v') :: dict_set d' k v
  end.

(** [m[k]] on a dict used as a map. *)
Definition getitem (m : gmap Z string) (k : Z) : result string :=
  match m !! k with
  | Some v => Ok v
  | None => Raise KeyError
  end.

(** Lines 34-40. *)
Definition node_positions (G : Graph) : list (Z * (Q * Q)) :=
  foldl (λ d '(node_id, data),
           dict_set d node_id
             (default 0%Q (data_x data), default 0%Q (data_y data)))
        [] (G_nodes G).

(** Lines 50 and 62-64; the literal [0.1] is read as one tenth. *)
Definition padding : Q := 1 # 10.
Definition svg_width : Q := 750.
Definition svg_height : Q := 550.
Definition margin : Q := 25.

(** The values of [min_x], [min_y] and [scale] after line 68. *)
Record Frame := mkFrame {
  min_x : Q;
  min_y : Q;
  scale : Q
}.

(** Lines 66 and 67: [extent / range if range > 0 else 1]. *)
Definition axis_scale (extent range : Q) : result Q :=
  if decide (0 < range)%Q then py_div extent range else mret 1%Q.

(** Lines 44-68. *)
Definition normalization (node_positions : list (Z * (Q * Q)))
    : result Frame :=
  let all_x := (λ item, fst (snd item)) <$> node_positions in
  let all_y := (λ item, snd (snd item)) <$> node_positions in
  min_x ← py_min all_x;
  max_x ← py_max all_x;
  min_y ← py_min all_y;
  max_y ← py_max all_y;
  let x_range := (max_x - min_x)%Q in
  let y_range := (max_y - min_y)%Q in
  let min_x := (min_x - x_range * padding)%Q in
  let max_x := (max_x + x_range * padding)%Q in
  let min_y := (min_y - y_range * padding)%Q in
  let max_y := (max_y + y_range * padding)%Q in
  let x_range := (max_x - min_x)%Q in
  let y_range := (max_y - min_y)%Q in
  scale_x ← axis_scale (svg_width - 2 * margin) x_range;
  scale_y ← axis_scale (svg_height - 2 * margin) y_range;
  mret (mkFrame min_x min_y (min2 scale_x scale_y)).

(** Lines 77-80. *)
Definition label_of (idx : Z) : result pystr :=
  if decide (idx < 26) then chr (65 + idx)
  else
    hi ← chr (65 + (idx `div` 26 - 1));
    lo ← chr (65 + idx `mod` 26);
    mret (hi ++ lo).

(** Lines 73-88: the body of the loop over
    [enumerate(node_positions.items())]; it assigns [nodes] and
    [node_id_map]. *)
Definition node_body (fr : Frame) (s : list Node * gmap Z string)
    (item : Z * (Z * (Q * Q))) : result (list Node * gmap Z string) :=
  let '(nodes, node_id_map) := s in
  let '(idx, (node_id, (x, y))) := item in
  let normalized_x := (margin + (x - min_x fr) * scale fr)%Q in
  let normalized_y := (margin + (y - min_y fr) * scale fr)%Q in
  label ← label_of idx;
  mret (nodes ++ [mkNode (str node_id) (py_round normalized_x 2)
                         (py_round normalized_y 2) label],
        <[node_id := str node_id]> node_id_map).

(** Lines 92-99: the body of the loop over [G.edges(data=True)]; it
    assigns [edges]. *)
Definition edge_body (node_id_map : gmap Z string) (edges : list Edge)
    (e : Z * Z) : Script (list Edge) :=
  let '(u, v) := e in
  if decide (is_Some (node_id_map !! u) ∧ is_Some (node_id_map !! v)) then
    r ← uniform 1 20;
    let weight := py_round r 1 in
    from ← lift (getitem node_id_map u);
    to ← lift (getitem node_id_map v);
    mret (edges ++ [mkEdge from to weight])
  else mret edges.

(** Lines 43-99: the block guarded by [if node_positions:].  It yields
    [nodes], [edges] and the frame it computed. *)
Definition convert (G : Graph) (node_positions : list (Z * (Q * Q)))
    : Script (list Node * list Edge * Frame) :=
  fr ← lift (normalization node_positions);
  '(nodes, node_id_map) ←
     lift (for_each (node_body fr) (enumerate node_positions) ([], ∅));
  edges ← for_each (edge_body node_id_map) (G_edges G) [];
  mret (nodes, edges, fr).

(** The whole script, from the graph the provider returned.  The value is
    the frame ([min_x], [min_y], [scale]) bound at exit, [None] when these
    names were never assigned. *)
Definition main (G : Graph) : Script (option Frame) :=
  print FetchingOSM;;
  print (NetworkHas (length (G_nodes G)) (length (G_edges G)));;
  let node_positions := node_positions G in
  '(nodes, edges, fr) ←
     match node_positions with
     | [] => mret ([], [], None)
     | _ :: _ =>
         '(nodes, edges, fr) ← convert G node_positions;
         mret (nodes, edges, Some fr)
     end;
  print (Created (length nodes) (length edges));;
  dump (mkDocument nodes edges);;
  print SavedTo;;
  print (NodeCount (length nodes));;
  print (EdgeCount (length edges));;
  mret fr.

(** *** Vocabulary of the statements about the script *)

(** The largest node count for which every [chr] of the labelling
    succeeds: [26 * (0x110000 - 64)]. *)
Definition max_labelled : Z := 28965248.

(** A raw position lands inside the margins once shifted and scaled. *)
Definition in_canvas (fr : Frame) (item : Z * (Q * Q)) : Prop :=
  let '(_, (x, y)) := item in
  (0 <= (x - min_x fr) * scale fr <= svg_width - 2 * margin)%Q
  ∧ (0 <= (y - min_y fr) * scale fr <= svg_height - 2 * margin)%Q.

Definition node_ok (n : Node) : Prop :=
  (margin <= x n <= svg_width - margin)%Q
  ∧ (margin <= y n <= svg_height - margin)%Q.

(** The node record appended for one item of
    [enumerate(node_positions.items())]. *)
Definition emits (fr : Frame) (it : Z * (Z * (Q * Q))) (n : Node) : Prop :=
  let '(idx, (node_id, (px, py))) := it in
  id n = str node_id
  ∧ x n = py_round (margin + (px - min_x fr) * scale fr) 2
  ∧ y n = py_round (margin + (py - min_y fr) * scale fr) 2
  ∧ label_of idx = Ok (label n).

(** What the node loop maintains, [pre] being the items visited. *)
Definition node_inv (fr : Frame) (pre : list (Z * (Z * (Q * Q))))
    (s : list Node * gmap Z string) : Prop :=
  id <$> s.1 = (λ it, str it.2.1) <$> pre
  ∧ Forall node_ok s.1
  ∧ Forall2 (λ n it, emits fr it n) s.1 pre
  ∧ Forall (λ it, it.1 < max_labelled) pre
  ∧ (∀ k, is_Some (s.2 !! k) → s.2 !! k = Some (str k) ∧ str k ∈ id <$> s.1).

(** A weight produced by [round(random.uniform(1, 20), 1)] from one of the
    values of the generator. *)
Definition drawn_weight (w : World) (q : Q) : Prop :=
  ∃ i, q = py_round (1 + (20 - 1) * entropy w i) 1.

(** What the edge loop maintains: the process environment only loses
    random draws, and every edge appended so far joins two entries of
    [node_id_map]. *)
Definition edge_inv (node_id_map : gmap Z string) (w0 : World)
    (edges : list Edge) (w : World) : Prop :=
  file w = file w0 ∧ stdout w = stdout w0 ∧ entropy w = entropy w0
  ∧ Forall (λ e, (∃ u, node_id_map !! u = Some (from e))
                 ∧ (∃ v, node_id_map !! v = Some (to e))
                 ∧ drawn_weight w0 (weight e)) edges.

(** What a run that reaches line 101 has built from [node_positions]. *)
Definition emitted (np : list (Z * (Q * Q))) (w : World)
    (nodes : list Node) (edges : list Edge) : Prop :=
  Z.of_nat (length np) ≤ max_labelled
  ∧ id <$> nodes = (λ it, str it.1) <$> np
  ∧ Forall node_ok nodes
  ∧ (∀ fr, normalization np = Ok fr →
           Forall2 (λ n it, emits fr it n) nodes (enumerate np))
  ∧ Forall (λ e, from e ∈ id <$> nodes ∧ to e ∈ id <$> nodes
                 ∧ drawn_weight w (weight e)) edges.

(** The entry of [node_positions] made for one item of
    [G.nodes(data=True)]. *)
Definition position_of (item : Z * NodeData) : Z * (Q * Q) :=
  (item.1, (default 0%Q (data_x item.2), default 0%Q (data_y item.2))).

(** The process environment after the two lines printed before the
    conversion, and after the report and the dump that follow it. *)
Definition after_banner G w : World :=
  mkWorld (file w)
    ((stdout w ++ [FetchingOSM])
       ++ [NetworkHas (length (G_nodes G)) (length (G_edges G))])
    (entropy w) (drawn w).

Definition after_report (nodes : list Node) (edges : list Edge) w : World :=
  mkWorld (Some (mkDocument nodes edges))
    ((((stdout w ++ [Created (length nodes) (length edges)]) ++ [SavedTo])
        ++ [NodeCount (length nodes)]) ++ [EdgeCount (length edges)])
    (entropy w) (drawn w).

(** A raw edge whose two ends are nodes of the graph, and the edge record
    written for the [k]-th such edge of a run started in [w]. *)
Definition joins (G : Graph) (e : Z * Z) : Prop :=
  e.1 ∈ (G_nodes G).*1 ∧ e.2 ∈ (G_nodes G).*1.

#[export] Instance joins_dec G e : Decision (joins G e) :=
  and_dec (decide (e.1 ∈ (G_nodes G).*1)) (decide (e.2 ∈ (G_nodes G).*1)).

Definition edge_of (w : World) (k : nat) (e : Z * Z) : Edge :=
  mkEdge (str e.1) (str e.2)
         (py_round (1 + (20 - 1) * entropy w (drawn w + k)%nat) 1).

(** Sample graphs: three nodes (the third without an 'x' entry) and four
    edges, one of them to a node that is not in the graph; a graph without
    nodes; and a process environment whose generator returns 0, 1/7, 2/7,
    ... (taken modulo 1). *)
Definition sample : Graph :=
  mkGraph
    [(5, mkNodeData (Some (1 # 2)%Q) (Some 3%Q));
     (7, mkNodeData (Some 2%Q) (Some (7 # 2)%Q));
     (9, mkNodeData None (Some 1%Q))]
    [(5, 7); (7, 9); (9, 11); (5, 7)].

Definition no_nodes : Graph := mkGraph [] [].

Definition sample_world : World :=
  mkWorld None [] (λ i, (Z.of_nat i `mod` 7) # 7) 0.

(** The frame the script computes and the document it writes for [sample]
    in [sample_world], and the process environment it leaves. *)
Definition sample_frame : Frame := mkFrame (-2 # 10) (15 # 20) (400000 # 2400).

Definition sample_doc : Document :=
  mkDocument
    [mkNode "5" (14167 # 100) (40000 # 100) [65];
     mkNode "7" (39167 # 100) (48333 # 100) [66];
     mkNode "9" (5833 # 100) (6667 # 100) [67]]
    [mkEdge "5" "7" (10 # 10); mkEdge "7" "9" (37 # 10);
     mkEdge "5" "7" (64 # 10)].

Definition sample_world_after : World :=
  mkWorld (Some sample_doc)
    [FetchingOSM; NetworkHas 3 4; Created 3 3; SavedTo; NodeCount 3;
     EdgeCount 3]
    (entropy sample_world) 3.

(** A graph with a single node and a self-loop, and what the script
    computes and writes for it in [sample_world]. *)
Definition single : Graph :=
  mkGraph [(42, mkNodeData (Some (237 # 10)%Q) (Some (379 # 10)%Q))]
          [(42, 42)].

Definition single_frame : Frame :=
  mkFrame (237000 # 10000) (379000 # 10000) 1.

Definition single_doc : Document :=
  mkDocument [mkNode "42" (2500 # 100) (2500 # 100) [65]]
             [mkEdge "42" "42" (10 # 10)].

Definition single_world_after : World :=
  mkWorld (Some single_doc)
    [FetchingOSM; NetworkHas 1 1; Created 1 1; SavedTo; NodeCount 1;
     EdgeCount 1]
    (entropy sample_world) 1.

End Fetcher.

(** Every edge joins two ids of the node list. *)
Definition no_dangling (data : Document) : Prop :=
  Forall (λ e, from e ∈ id <$> nodes data ∧ to e ∈ id <$> nodes data)
         (edges data).
(** ** A sample run of the two scripts in sequence *)

Module Pipeline.

(** Three nodes, two of them with reference ids, and the node 1001 to the
    west of both. *)
Definition athens : Fetcher.Graph :=
  Fetcher.mkGraph
    [(250691723,
      Fetcher.mkNodeData (Some (23735 # 1000)%Q) (Some (37980 # 1000)%Q));
     (1001,
      Fetcher.mkNodeData (Some (23730 # 1000)%Q) (Some (37977 # 1000)%Q));
     (250698924,
      Fetcher.mkNodeData (Some (23740 # 1000)%Q) (Some (37985 # 1000)%Q))]
    [(1001, 250691723); (250691723, 250698924); (250698924, 1001)].

Definition athens_frame : Fetcher.Frame :=
  Fetcher.mkFrame (237290000000 # 10000000000)
                  (379762000000 # 10000000000)
                  (50000000000000000000000 # 960000000000000000).

Definition athens_doc : Document :=
  mkDocument
    [mkNode "250691723" (33750 # 100) (22292 # 100) [65];
     mkNode "1001" (7708 # 100) (6667 # 100) [66];
     mkNode "250698924" (59792 # 100) (48333 # 100) [67]]
    [mkEdge "1001" "250691723" (10 # 10);
     mkEdge "250691723" "250698924" (37 # 10);
     mkEdge "250698924" "1001" (64 # 10)].

Definition athens_fetched : World :=
  mkWorld (Some athens_doc)
    [FetchingOSM; NetworkHas 3 3; Created 3 3; SavedTo; NodeCount 3;
     EdgeCount 3]
    (entropy Fetcher.sample_world) 3.

Definition athens_kept : Document :=
  mkDocument
    [mkNode "250691723" (33750 # 100) (22292 # 100) [65];
     mkNode "250698924" (59792 # 100) (48333 # 100) [67]]
    [mkEdge "250691723" "250698924" (37 # 10)].

Definition athens_filtered : World :=
  mkWorld (Some athens_kept)
    [FetchingOSM; NetworkHas 3 3; Created 3 3; SavedTo; NodeCount 3;
     EdgeCount 3; MinimumX (33750 # 100); Original 3 3; Filtered 2 1;
     FilteredSaved]
    (entropy Fetcher.sample_world) 3.

End Pipeline.

(** * Python floats

    A Python [float] is an IEEE 754 binary64 value.  A finite one is the
    rational it denotes; every operation is the exact operation followed by
    rounding to the nearest double, ties to even, with gradual underflow and
    overflow to infinity.  The sign of a zero is not represented. *)

Module IEEE.

Inductive double : Type :=
  | Finite (q : Q)
  | Inf_pos
  | Inf_neg
  | NaN.

(** The exponent [e] with [2 ^ e <= q < 2 ^ (e + 1)], for [0 < q]. *)
Definition ilog2 (q : Q) : Z :=
  let e0 := Z.log2 (Qnum q) - Z.log2 (Z.pos (Qden q)) in
  if decide (q < 2 ^ e0)%Q then e0 - 1 else e0.

(** The exponent of the spacing of the doubles around [q]: 53 significant
    bits, and no exponent below that of the subnormal numbers. *)
Definition ulp_exponent (q : Q) : Z := Z.max (ilog2 q) (-1022) - 52.

(** The multiple of that spacing nearest to [q], ties to even. *)
Definition nearest (q : Q) : Q :=
  let e := ulp_exponent q in
  (inject_Z (round_half_even (q / 2 ^ e)) * 2 ^ e)%Q.

(** Rounding of a positive rational; what reaches [2 ^ 1024] is [inf]. *)
Definition round_pos (q : Q) : double :=
  let r := nearest q in
  if decide (2 ^ 1024 <= r)%Q then Inf_pos else Finite (Qred r).

Definition dneg (a : double) : double :=
  match a with
  | Finite q => Finite (Qred (- q))
  | Inf_pos => Inf_neg
  | Inf_neg => Inf_pos
  | NaN => NaN
  end.

(** Rounding of any rational. *)
Definition round_double (q : Q) : double :=
  if decide (0 < q)%Q then round_pos q
  else if decide (q < 0)%Q then dneg (round_pos (- q))
  else Finite 0.

(** [a + b], [a - b], [a * b] and [a / b] on floats. *)
Definition dadd (a b : double) : double :=
  match a, b with
  | NaN, _ | _, NaN => NaN
  | Finite p, Finite q => round_double (p + q)
  | Inf_pos, Inf_neg | Inf_neg, Inf_pos => NaN
  | Inf_pos, _ | _, Inf_pos => Inf_pos
  | Inf_neg, _ | _, Inf_neg => Inf_neg
  end.

Definition dsub (a b : double) : double :=
  match a, b with
  | NaN, _ | _, NaN => NaN
  | Finite p, Finite q => round_double (p - q)
  | Inf_pos, Inf_pos | Inf_neg, Inf_neg => NaN
  | Inf_pos, _ | _, Inf_neg => Inf_pos
  | Inf_neg, _ | _, Inf_pos => Inf_neg
  end.

Definition dsign (a : double) : Z :=
  match a with
  | Finite q => Z.sgn (Qnum q)
  | Inf_pos => 1
  | Inf_neg => -1
  | NaN => 0
  end.

Definition inf_of_sign (s : Z) : double :=
  if decide (0 < s) then Inf_pos else if decide (s < 0) then Inf_neg else NaN.

Definition dmul (a b : double) : double :=
  match a, b with
  | NaN, _ | _, NaN => NaN
  | Finite p, Finite q => round_double (p * q)
  | _, _ => inf_of_sign (dsign a * dsign b)
  end.

(** Python raises on a zero divisor, whatever the dividend. *)
Definition ddiv (a b : double) : result double :=
  match a, b with
  | _, Finite q =>
      if decide (q == 0)%Q then Raise ZeroDivisionError
      else match a with
           | Finite p => Ok (round_double (p / q))
           | NaN => Ok NaN
           | _ => Ok (inf_of_sign (dsign a * dsign b))
           end
  | NaN, _ | _, NaN => Ok NaN
  | Finite _, _ => Ok (Finite 0)
  | _, _ => Ok NaN
  end.

(** [a <= b] as a property and [a < b] as the test Python evaluates; both
    are false when a NaN is compared. *)
Definition dle (a b : double) : Prop :=
  match a, b with
  | NaN, _ | _, NaN => False
  | Finite p, Finite q => (p <= q)%Q
  | Inf_neg, _ | _, Inf_pos => True
  | _, _ => False
  end.

Definition dlt (a b : double) : bool :=
  match a, b with
  | NaN, _ | _, NaN => false
  | Finite p, Finite q => bool_decide (p < q)%Q
  | Inf_neg, Inf_neg | Inf_pos, _ => false
  | Inf_neg, _ => true
  | Finite _, Inf_pos => true
  | Finite _, Inf_neg => false
  end.

(** [round(x, ndigits)]: the decimal rounding of the exact value of [x],
    ties to even, then the double nearest to it; [inf] and NaN are
    returned unchanged. *)
Definition round_to (x : double) (ndigits : nat) : double :=
  match x with
  | Finite q => round_double (py_round q ndigits)
  | _ => x
  end.

End IEEE.

(** ** Lines 43-85 of scripts/generate_network.py in binary64 *)

Module FetcherIEEE.
Import IEEE.

Definition min2 (a b : double) : double := if dlt b a then b else a.
Definition max2 (a b : double) : double := if dlt a b then b else a.

Definition py_min (l : list double) : result double :=
  match l with
  | [] => Raise ValueError
  | a :: l' => Ok (foldl min2 a l')
  end.

Definition py_max (l : list double) : result double :=
  match l with
  | [] => Raise ValueError
  | a :: l' => Ok (foldl max2 a l')
  end.

(** The double nearest to 0.1. *)
Definition padding : double :=
  Finite (3602879701896397 # 36028797018963968).
Definition svg_width : Z := 750.
Definition svg_height : Z := 550.
Definition margin : Z := 25.

(** An [int] used where a float is expected. *)
Definition of_int (n : Z) : double := Finite (inject_Z n).

(** The values of [min_x], [min_y], [x_range], [y_range] and [scale] after
    line 68. *)
Record Frame := mkFrame {
  min_x : double;
  min_y : double;
  x_range : double;
  y_range : double;
  scale : double
}.

(** Lines 66 and 67. *)
Definition axis_scale (extent : Z) (range : double) : result double :=
  if dlt (of_int 0) range then ddiv (of_int extent) range
  else mret (of_int 1).

(** Lines 44-68. *)
Definition normalization (node_positions : list (Z * (double * double)))
    : result Frame :=
  let all_x := (λ item, item.2.1) <$> node_positions in
  let all_y := (λ item, item.2.2) <$> node_positions in
  min_x ← py_min all_x;
  max_x ← py_max all_x;
  min_y ← py_min all_y;
  max_y ← py_max all_y;
  let x_range := dsub max_x min_x in
  let y_range := dsub max_y min_y in
  let min_x := dsub min_x (dmul x_range padding) in
  let max_x := dadd max_x (dmul x_range padding) in
  let min_y := dsub min_y (dmul y_range padding) in
  let max_y := dadd max_y (dmul y_range padding) in
  let x_range := dsub max_x min_x in
  let y_range := dsub max_y min_y in
  scale_x ← axis_scale (svg_width - 2 * margin) x_range;
  scale_y ← axis_scale (svg_height - 2 * margin) y_range;
  mret (mkFrame min_x min_y x_range y_range (min2 scale_x scale_y)).

(** Lines 73-74 and 84-85: [round(margin + (raw - lo) * scale, 2)]. *)
Definition written (lo scale raw : double) : double :=
  round_to (dadd (of_int margin) (dmul (dsub raw lo) scale)) 2.

(** The pairs [(x, y)] of the node records appended by lines 72-87. *)
Definition coordinates (node_positions : list (Z * (double * double)))
    : result (list (double * double)) :=
  fr ← normalization node_positions;
  mret ((λ item, (written (min_x fr) (scale fr) item.2.1,
                  written (min_y fr) (scale fr) item.2.2))
          <$> node_positions).

(** *** Vocabulary *)

Definition finite (a : double) : Prop :=
  match a with Finite _ => True | _ => False end.

(** [a] is a finite binary64 value. *)
Definition representable (a : double) : Prop :=
  match a with
  | Finite q => ∃ r, round_double q = Finite r ∧ (r == q)%Q
  | _ => False
  end.

Definition within (lo hi : Q) (a : double) : Prop :=
  match a with
  | Finite q => (lo <= q <= hi)%Q
  | _ => False
  end.

(** What lines 66-68 can yield: a finite double that is not negative, or
    [inf]. *)
Definition scale_like (sx : double) : Prop :=
  match sx with
  | Finite s' => (0 <= s')%Q ∧ (s' < 2 ^ 1024)%Q
  | Inf_pos => True
  | _ => False
  end.

(** [s] is at most [sx]. *)
Definition below (s : Q) (sx : double) : Prop :=
  match sx with
  | Finite s' => (s <= s')%Q
  | Inf_pos => True
  | _ => False
  end.

(** Finite doubles that bound the steps of lines 73 and 84 from above
    ([cap], ...) and from below ([floor_L1], ...). *)
Definition finite_value (a : double) : Q :=
  match a with Finite q => q | _ => 0 end.

Definition cap (extent : Z) : Q := inject_Z extent + 2 ^ (-40).
Definition cap_B (extent : Z) : Q := finite_value (round_double (cap extent)).
Definition cap_C (extent : Z) : Q :=
  finite_value (round_double (inject_Z margin + cap_B extent)).
Definition cap_D (extent : Z) : Q :=
  finite_value (round_double (py_round (cap_C extent) 2)).
Definition floor_L1 : Q := finite_value (round_double (inject_Z margin)).
Definition floor_L2 : Q := finite_value (round_double (py_round floor_L1 2)).

(** Two nodes whose raw coordinates are 0 and the least positive double
    (5e-324), and the three nodes of [Fetcher.sample]. *)
Definition tiny : list (Z * (double * double)) :=
  [(1, (Finite 0, Finite 0));
   (2, (Finite (2 ^ (-1074)), Finite (2 ^ (-1074))))].

Definition sample : list (Z * (double * double)) :=
  [(5, (Finite (1 # 2), Finite 3)); (7, (Finite 2, Finite (7 # 2)));
   (9, (Finite 0, Finite 1))].

(** What lines 44-68 and 72-87 compute on [sample]. *)
Definition sample_frame : Frame :=
  Eval vm_compute in
    match normalization sample with
    | Ok fr => fr
    | Raise _ => mkFrame NaN NaN NaN NaN NaN
    end.

Definition sample_out : list (double * double) :=
  Eval vm_compute in
    match coordinates sample with
    | Ok out => out
    | Raise _ => []
    end.

End FetcherIEEE.

(** * Properties of the built-ins *)

Section py_min_max.
Implicit Types (a b m : Q) (l : list Q).

Lemma foldl_min2_spec l a :
  (foldl min2 a l = a ∨ foldl min2 a l ∈ l)
  ∧ (foldl min2 a l <= a)%Q
  ∧ Forall (λ b, (foldl min2 a l <= b)%Q) l.
Proof.
  revert a. induction l as [|b l IH]; intros a; simpl.
  - split_and!; [by left | apply Qle_refl | constructor].
  - destruct (IH (min2 a b)) as (Hin & Hle & Hall).
    assert (Hab : (min2 a b <= a)%Q ∧ (min2 a b <= b)%Q
                  ∧ (min2 a b = a ∨ min2 a b = b)).
    { unfold min2. case_decide; split_and!; auto; lra. }
    destruct Hab as (Ha & Hb & Hor).
    split_and!.
    + destruct Hin as [->|Hin].
      * destruct Hor as [->| ->]; [by left | right; left].
      * right. by right.
    + lra.
    + constructor; [lra | done].
Qed.

Lemma foldl_max2_spec l a :
  (foldl max2 a l = a ∨ foldl max2 a l ∈ l)
  ∧ (a <= foldl max2 a l)%Q
  ∧ Forall (λ b, (b <= foldl max2 a l)%Q) l.
Proof.
  revert a. induction l as [|b l IH]; intros a; simpl.
  - split_and!; [by left | apply Qle_refl | constructor].
  - destruct (IH (max2 a b)) as (Hin & Hle & Hall).
    assert (Hab : (a <= max2 a b)%Q ∧ (b <= max2 a b)%Q
                  ∧ (max2 a b = a ∨ max2 a b = b)).
    { unfold max2. case_decide; split_and!; auto; lra. }
    destruct Hab as (Ha & Hb & Hor).
    split_and!.
    + destruct Hin as [->|Hin].
      * destruct Hor as [->| ->]; [by left | right; left].
      * right. by right.
    + lra.
    + constructor; [lra | done].
Qed.

Lemma py_min_Ok l m :
  py_min l = Ok m → m ∈ l ∧ ∀ b, b ∈ l → (m <= b)%Q.
Proof.
  destruct l as [|a l]; [done|]. intros [= <-].
  destruct (foldl_min2_spec l a) as (Hin & Hle & Hall). split.
  - destruct Hin as [->|Hin]; [left | by right].
  - intros b [->|Hb]%elem_of_cons; [done|].
    rewrite Forall_forall in Hall. by apply Hall.
Qed.

Lemma py_max_Ok l m :
  py_max l = Ok m → m ∈ l ∧ ∀ b, b ∈ l → (b <= m)%Q.
Proof.
  destruct l as [|a l]; [done|]. intros [= <-].
  destruct (foldl_max2_spec l a) as (Hin & Hle & Hall). split.
  - destruct Hin as [->|Hin]; [left | by right].
  - intros b [->|Hb]%elem_of_cons; [done|].
    rewrite Forall_forall in Hall. by apply Hall.
Qed.

Lemma py_min_nonempty l : l ≠ [] → ∃ m, py_min l = Ok m.
Proof. destruct l; [done | eauto]. Qed.

Lemma py_max_nonempty l : l ≠ [] → ∃ m, py_max l = Ok m.
Proof. destruct l; [done | eauto]. Qed.

End py_min_max.

(** * Rounding *)

Section rounding.
Implicit Types (q v : Q) (k : Z).

Lemma round_half_even_ge q k :
  (inject_Z k <= q)%Q → k ≤ round_half_even q.
Proof.
  intros Hk. assert (Hf : k ≤ Qfloor q).
  { rewrite <- (Qfloor_Z k). by apply Qfloor_resp_le. }
  unfold round_half_even. repeat case_decide; try destruct (Z.even _); lia.
Qed.

Lemma round_half_even_le q k :
  (q <= inject_Z k)%Q → round_half_even q ≤ k.
Proof.
  intros Hk. pose proof (Qfloor_le q) as Hfl.
  assert (Hf : Qfloor q ≤ k).
  { rewrite <- (Qfloor_Z k). by apply Qfloor_resp_le. }
  unfold round_half_even.
  destruct (decide (Qfloor q = k)) as [Heq|Hne].
  - rewrite decide_True; [lia|]. rewrite Heq in *. lra.
  - repeat case_decide; try destruct (Z.even _); lia.
Qed.

Lemma Qmake_inject_Z_le (z : Z) (p : positive) k :
  (k * Z.pos p ≤ z) → (inject_Z k <= z # p)%Q.
Proof. unfold Qle. simpl. lia. Qed.

Lemma Qmake_le_inject_Z (z : Z) (p : positive) k :
  (z ≤ k * Z.pos p) → (z # p <= inject_Z k)%Q.
Proof. unfold Qle. simpl. lia. Qed.

(** Rounding to decimals keeps a value at or above an integer bound, and at
    or below one. *)
Lemma py_round_ge v ndigits k :
  (inject_Z k <= v)%Q → (inject_Z k <= py_round v ndigits)%Q.
Proof.
  intros Hk. unfold py_round. apply Qmake_inject_Z_le.
  apply round_half_even_ge. rewrite inject_Z_mult.
  apply Qmult_le_compat_r; [done|]. by unfold Qle.
Qed.

Lemma py_round_le v ndigits k :
  (v <= inject_Z k)%Q → (py_round v ndigits <= inject_Z k)%Q.
Proof.
  intros Hk. unfold py_round. apply Qmake_le_inject_Z.
  apply round_half_even_le. rewrite inject_Z_mult.
  apply Qmult_le_compat_r; [done|]. by unfold Qle.
Qed.
End rounding.

(** * Properties of scripts/filter_network.py *)

Module FilterFacts.
Import Filter.

Implicit Types (data out : Document) (n r : Node) (e : Edge) (w : World).

Lemma filter_filter_elem_of {A} (P1 P2 : A → Prop)
    `{!∀ a, Decision (P1 a), !∀ a, Decision (P2 a)} (l : list A) :
  (∀ a, a ∈ l → P1 a → P2 a) →
  filter P1 (filter P2 l) = filter P1 l.
Proof.
  induction l as [|a l IH]; intros Himp; [done|].
  assert (IH' : filter P1 (filter P2 l) = filter P1 l).
  { apply IH. intros b Hb. apply Himp. by right. }
  destruct (decide (P1 a)) as [H1|H1].
  - assert (H2 : P2 a) by (apply Himp; [left | done]).
    rewrite (filter_cons_True P2) by done.
    rewrite !(filter_cons_True P1) by done. by rewrite IH'.
  - rewrite (filter_cons_False P1 a l) by done.
    destruct (decide (P2 a)) as [H2|H2].
    + rewrite (filter_cons_True P2) by done.
      by rewrite (filter_cons_False P1) by done.
    + by rewrite (filter_cons_False P2) by done.
Qed.

Lemma elem_of_ref_x_coords data q :
  q ∈ ref_x_coords data ↔ ∃ r, r ∈ nodes data ∧ id r ∈ ref_nodes ∧ x r = q.
Proof.
  unfold ref_x_coords. rewrite list_elem_of_fmap. split.
  - intros (r & -> & [? ?]%list_elem_of_filter). eauto.
  - intros (r & ? & ? & <-). exists r. by rewrite list_elem_of_filter.
Qed.

Lemma elem_of_nodes_to_keep min_x data n :
  n ∈ nodes_to_keep min_x data ↔ n ∈ nodes data ∧ (min_x <= x n)%Q.
Proof. unfold nodes_to_keep. rewrite list_elem_of_filter. tauto. Qed.

Lemma elem_of_node_ids_to_keep min_x data s :
  s ∈ node_ids_to_keep min_x data
  ↔ ∃ n, n ∈ nodes_to_keep min_x data ∧ id n = s.
Proof.
  unfold node_ids_to_keep. rewrite elem_of_list_to_set, list_elem_of_fmap.
  split; intros (n & ? & ?); eauto.
Qed.

Lemma elem_of_edges_to_keep min_x data e :
  e ∈ edges_to_keep min_x data
  ↔ e ∈ edges data
    ∧ from e ∈ node_ids_to_keep min_x data
    ∧ to e ∈ node_ids_to_keep min_x data.
Proof. unfold edges_to_keep. rewrite list_elem_of_filter. tauto. Qed.

(** The script succeeds exactly when some node carries a reference id. *)
Lemma filter_network_Ok data :
  (∃ r, r ∈ nodes data ∧ id r ∈ ref_nodes) →
  ∃ min_x, py_min (ref_x_coords data) = Ok min_x
           ∧ filter_network data = Ok (min_x, filtered_data min_x data).
Proof.
  intros (r & Hr & Hid).
  destruct (py_min_nonempty (ref_x_coords data)) as [m Hm].
  - intros Hnil. assert (Hx : x r ∈ ref_x_coords data).
    { apply elem_of_ref_x_coords. eauto. }
    rewrite Hnil in Hx. by apply elem_of_nil in Hx.
  - exists m. split; [done|]. unfold filter_network. by rewrite Hm.
Qed.

Lemma filter_network_inv data min_x out :
  filter_network data = Ok (min_x, out) →
  py_min (ref_x_coords data) = Ok min_x ∧ out = filtered_data min_x data.
Proof.
  unfold filter_network. destruct (py_min (ref_x_coords data)) as [m|]; [|done].
  by intros [= -> <-].
Qed.

Lemma filter_network_Raise data :
  (∀ n, n ∈ nodes data → id n ∉ ref_nodes) →
  filter_network data = Raise ValueError.
Proof.
  intros Hno. unfold filter_network.
  assert (Hnil : ref_x_coords data = []).
  { destruct (ref_x_coords data) as [|q l] eqn:E; [done|].
    assert (Hq : q ∈ ref_x_coords data) by (rewrite E; left).
    apply elem_of_ref_x_coords in Hq as (r & Hr & Hid & _).
    by destruct (Hno r Hr). }
  by rewrite Hnil.
Qed.

(** What [main] does to the process environment. *)
Lemma main_Ok w data min_x out :
  file w = Some data →
  filter_network data = Ok (min_x, out) →
  main w = (Ok (),
            mkWorld (Some out)
              (stdout w ++ [MinimumX min_x]
                 ++ [Original (length (nodes data)) (length (edges data))]
                 ++ [Filtered (length (nodes out)) (length (edges out))]
                 ++ [FilteredSaved])
              (entropy w) (drawn w)).
Proof.
  intros Hf Hn. unfold main, mbind, Script_bind, load, lift, print, dump.
  rewrite Hf, Hn. simpl. by rewrite <- !app_assoc.
Qed.

Lemma main_Raise w data (e : exn) :
  file w = Some data →
  filter_network data = Raise e →
  main w = (Raise e, w).
Proof.
  intros Hf Hn. unfold main, mbind, Script_bind, load, lift.
  by rewrite Hf, Hn.
Qed.

Lemma main_inv w w1 :
  main w = (Ok (), w1) →
  ∃ data min_x out,
    file w = Some data ∧ filter_network data = Ok (min_x, out)
    ∧ file w1 = Some out.
Proof.
  intros Hrun. destruct (file w) as [data|] eqn:Hf.
  - destruct (filter_network data) as [[min_x out]|e] eqn:Hn.
    + rewrite (main_Ok w data min_x out Hf Hn) in Hrun.
      injection Hrun as <-. by exists data, min_x, out.
    + by rewrite (main_Raise w data e Hf Hn) in Hrun.
  - unfold main, mbind, Script_bind, load in Hrun. by rewrite Hf in Hrun.
Qed.

(** Filtering a filtered document with the same threshold changes
    nothing. *)
Lemma filtered_data_idem min_x data :
  filtered_data min_x (filtered_data min_x data) = filtered_data min_x data.
Proof.
  assert (Hn : nodes_to_keep min_x (filtered_data min_x data)
               = nodes_to_keep min_x data).
  { unfold nodes_to_keep at 1. simpl. unfold nodes_to_keep.
    by apply list_filter_filter_l. }
  assert (He : edges_to_keep min_x (filtered_data min_x data)
               = edges_to_keep min_x data).
  { unfold edges_to_keep at 1, node_ids_to_keep. rewrite Hn. simpl.
    unfold edges_to_keep, node_ids_to_keep. by apply list_filter_filter_l. }
  unfold filtered_data at 1. by rewrite Hn, He.
Qed.

(** Every reference node survives, so the reference coordinates are read
    again in the same order. *)
Lemma ref_x_coords_filtered min_x data :
  py_min (ref_x_coords data) = Ok min_x →
  ref_x_coords (filtered_data min_x data) = ref_x_coords data.
Proof.
  intros Hmin. unfold ref_x_coords. simpl. unfold nodes_to_keep. f_equal.
  apply filter_filter_elem_of. intros n Hn Hid.
  apply py_min_Ok in Hmin as [_ Hle]. apply Hle.
  apply elem_of_ref_x_coords. eauto.
Qed.

(** C1. When at least one reference id occurs in the input, the run
    succeeds; [min_x] is the x of a reference node and is below the x of
    every reference node; the nodes written are the input nodes with
    [x >= min_x], in their input order, so each node written has
    [x >= min_x]. *)
Theorem C1_threshold_and_kept_nodes w data :
  file w = Some data →
  (∃ r, r ∈ nodes data ∧ id r ∈ ref_nodes) →
  ∃ min_x out w',
    main w = (Ok (), w') ∧ file w' = Some out
    ∧ filter_network data = Ok (min_x, out)
    ∧ (∃ r, r ∈ nodes data ∧ id r ∈ ref_nodes ∧ x r = min_x)
    ∧ (∀ r, r ∈ nodes data → id r ∈ ref_nodes → (min_x <= x r)%Q)
    ∧ nodes out = filter (λ n, (min_x <= x n)%Q) (nodes data)
    ∧ (∀ n, n ∈ nodes out ↔ n ∈ nodes data ∧ (min_x <= x n)%Q)
    ∧ Forall (λ n, (min_x <= x n)%Q) (nodes out).
Proof.
  intros Hf Href.
  destruct (filter_network_Ok data Href) as (min_x & Hmin & Hrun).
  eexists min_x, (filtered_data min_x data), _.
  split; [by apply main_Ok|]. split; [done|]. split; [done|].
  apply py_min_Ok in Hmin as [Hin Hle]. split_and!.
  - by apply elem_of_ref_x_coords.
  - intros r Hr Hid. apply Hle, elem_of_ref_x_coords. eauto.
  - done.
  - intros n. apply elem_of_nodes_to_keep.
  - apply Forall_forall. intros n Hn.
    by apply elem_of_nodes_to_keep in Hn as [_ ?].
Qed.

Lemma C1_witness :
  ∃ min_x out w',
    main (world_of sample) = (Ok (), w') ∧ file w' = Some out
    ∧ filter_network sample = Ok (min_x, out)
    ∧ (∃ r, r ∈ nodes sample ∧ id r ∈ ref_nodes ∧ x r = min_x)
    ∧ (∀ r, r ∈ nodes sample → id r ∈ ref_nodes → (min_x <= x r)%Q)
    ∧ nodes out = filter (λ n, (min_x <= x n)%Q) (nodes sample)
    ∧ (∀ n, n ∈ nodes out ↔ n ∈ nodes sample ∧ (min_x <= x n)%Q)
    ∧ Forall (λ n, (min_x <= x n)%Q) (nodes out).
Proof.
  apply (C1_threshold_and_kept_nodes (world_of sample) sample).
  - reflexivity.
  - exists (mkNode "250691723" 5 0 [66]). split; simpl.
    + apply list_elem_of_further, list_elem_of_here.
    + apply list_elem_of_further, list_elem_of_here.
Defined.

(** C2. A run on the file a successful run wrote succeeds and leaves the
    same document in the file; on documents, filtering the filtered
    document returns the same threshold and the same document. *)
Theorem C2_idempotent w w1 :
  main w = (Ok (), w1) →
  (∃ w2, main w1 = (Ok (), w2) ∧ file w2 = file w1)
  ∧ (∀ data min_x out,
       file w = Some data → filter_network data = Ok (min_x, out) →
       filter_network out = Ok (min_x, out)).
Proof.
  intros Hrun.
  assert (Hdoc : ∀ data min_x out,
            filter_network data = Ok (min_x, out) →
            filter_network out = Ok (min_x, out)).
  { intros data min_x out [Hmin ->]%filter_network_inv.
    unfold filter_network.
    rewrite (ref_x_coords_filtered _ _ Hmin), Hmin. simpl.
    by rewrite filtered_data_idem. }
  split; [|by eauto].
  apply main_inv in Hrun as (data & min_x & out & Hf & Hn & Hf1).
  eexists. split.
  - apply (main_Ok w1 out min_x out Hf1). by eapply Hdoc.
  - done.
Qed.

Lemma C2_witness :
  (∃ w2, main (snd (main (world_of sample))) = (Ok (), w2)
         ∧ file w2 = file (snd (main (world_of sample))))
  ∧ (∀ data min_x out,
       file (world_of sample) = Some data →
       filter_network data = Ok (min_x, out) →
       filter_network out = Ok (min_x, out)).
Proof.
  apply (C2_idempotent (world_of sample)). reflexivity.
Defined.

(** C3, as stated, fails on [sample]: nine of the ten reference ids are
    absent from its nodes and the run succeeds, writing [sample_kept]. *)
Lemma C3_counterexample :
  (∃ ref, ref ∈ ref_nodes ∧ ref ∉ id <$> nodes sample)
  ∧ filter_network sample = Ok (5%Q, sample_kept)
  ∧ fst (main (world_of sample)) = Ok ()
  ∧ ¬ (∀ data, (∃ ref, ref ∈ ref_nodes ∧ ref ∉ id <$> nodes data) →
               ∃ err, filter_network data = Raise err).
Proof.
  assert (Habs : ∃ ref, ref ∈ ref_nodes ∧ ref ∉ id <$> nodes sample).
  { exists "3339821648"%string. split; [left|].
    rewrite list_elem_of_In. simpl. intros [H|[H|[H|[]]]]; discriminate H. }
  split_and!; [done | reflexivity | reflexivity |].
  intros Hall. by destruct (Hall sample Habs) as [err Herr].
Qed.

(** C3, amended. When some reference id is absent from the node set, the
    absence is not reported: the run fails, with the [ValueError] of [min]
    on an empty list, exactly when no node at all carries a reference id;
    otherwise it succeeds and [min_x] is the least x among the reference
    nodes that are present. *)
Theorem C3_absent_reference_id data :
  (∃ ref, ref ∈ ref_nodes ∧ ref ∉ id <$> nodes data) →
  (filter_network data = Raise ValueError
   ↔ ∀ n, n ∈ nodes data → id n ∉ ref_nodes)
  ∧ ((∃ r, r ∈ nodes data ∧ id r ∈ ref_nodes) →
     ∃ min_x out,
       filter_network data = Ok (min_x, out)
       ∧ (∃ r, r ∈ nodes data ∧ id r ∈ ref_nodes ∧ x r = min_x)
       ∧ (∀ r, r ∈ nodes data → id r ∈ ref_nodes → (min_x <= x r)%Q)).
Proof.
  intros _. split.
  - split; [|apply filter_network_Raise].
    intros Hfail n Hn Hid.
    destruct (filter_network_Ok data) as (m & _ & Hok); [by eauto|].
    by rewrite Hok in Hfail.
  - intros Href. destruct (filter_network_Ok data Href) as (m & Hmin & Hok).
    exists m, (filtered_data m data). split; [done|].
    apply py_min_Ok in Hmin as [Hin Hle]. split.
    + by apply elem_of_ref_x_coords.
    + intros r Hr Hid. apply Hle, elem_of_ref_x_coords. eauto.
Qed.

Lemma C3_witness :
  (filter_network sample = Raise ValueError
   ↔ ∀ n, n ∈ nodes sample → id n ∉ ref_nodes)
  ∧ ((∃ r, r ∈ nodes sample ∧ id r ∈ ref_nodes) →
     ∃ min_x out,
       filter_network sample = Ok (min_x, out)
       ∧ (∃ r, r ∈ nodes sample ∧ id r ∈ ref_nodes ∧ x r = min_x)
       ∧ (∀ r, r ∈ nodes sample → id r ∈ ref_nodes → (min_x <= x r)%Q)).
Proof.
  apply (C3_absent_reference_id sample).
  exists "3339821648"%string. split; [left|].
  rewrite list_elem_of_In. simpl. intros [H|[H|[H|[]]]]; discriminate H.
Defined.

(** C6. After a successful run an input edge is in the output exactly when
    some output node has its 'from' id and some output node has its 'to'
    id. *)
Theorem C6_edge_survives_iff data min_x out e :
  filter_network data = Ok (min_x, out) →
  e ∈ edges data →
  (e ∈ edges out
   ↔ (∃ n, n ∈ nodes out ∧ id n = from e)
     ∧ (∃ n, n ∈ nodes out ∧ id n = to e)).
Proof.
  intros [_ ->]%filter_network_inv He. simpl.
  rewrite elem_of_edges_to_keep, !elem_of_node_ids_to_keep. tauto.
Qed.

Lemma C6_witness :
  (mkEdge "1" "3" (15 # 10) ∈ edges sample_kept
   ↔ (∃ n, n ∈ nodes sample_kept ∧ id n = from (mkEdge "1" "3" (15 # 10)))
     ∧ (∃ n, n ∈ nodes sample_kept ∧ id n = to (mkEdge "1" "3" (15 # 10)))).
Proof.
  apply (C6_edge_survives_iff sample 5%Q sample_kept).
  - reflexivity.
  - left.
Defined.

(** C9. When no node carries a reference id, [min] raises [ValueError]
    before anything is printed or written: the run ends with that
    exception and the process environment, the data file included, is as
    it was. *)
Theorem C9_no_reference_id w data :
  file w = Some data →
  (∀ n, n ∈ nodes data → id n ∉ ref_nodes) →
  py_min (ref_x_coords data) = Raise ValueError
  ∧ main w = (Raise ValueError, w).
Proof.
  intros Hf Hno. pose proof (filter_network_Raise data Hno) as Hr. split.
  - unfold filter_network in Hr.
    by destruct (py_min (ref_x_coords data)) as [m|[]].
  - by apply main_Raise with data.
Qed.

Lemma C9_witness :
  py_min (ref_x_coords sample_no_ref) = Raise ValueError
  ∧ main (world_of sample_no_ref) = (Raise ValueError, world_of sample_no_ref).
Proof.
  apply (C9_no_reference_id (world_of sample_no_ref) sample_no_ref).
  - reflexivity.
  - intros n Hn Hid. rewrite list_elem_of_In in Hn.
    rewrite list_elem_of_In in Hid. simpl in Hn.
    destruct Hn as [<-|[<-|[]]]; simpl in Hid;
      repeat (destruct Hid as [Hid|Hid]; [discriminate Hid|]); exact Hid.
Defined.

End FilterFacts.

(** * Properties of scripts/generate_network.py *)

Module FetcherFacts.
Import Fetcher.

Implicit Types (G : Graph) (w : World) (fr : Frame) (idx k u v : Z).

(** ** The frame *)

Lemma axis_scale_spec (extent range : Q) :
  (0 < extent)%Q →
  ∃ s, axis_scale extent range = Ok s
       ∧ (0 < s)%Q
       ∧ ((0 < range)%Q → (s * range == extent)%Q)
       ∧ (¬ (0 < range)%Q → s = 1%Q).
Proof.
  intros Hext. unfold axis_scale. destruct (decide (0 < range)%Q) as [Hr|Hr].
  - unfold py_div. rewrite decide_False by lra.
    exists (extent / range)%Q. split_and!; [done| | |done].
    + apply Qlt_shift_div_l; lra.
    + intros _. field. lra.
  - exists 1%Q. split_and!; [done|lra|done|done].
Qed.

Lemma min2_spec (a b : Q) :
  (min2 a b <= a)%Q ∧ (min2 a b <= b)%Q ∧ (min2 a b = a ∨ min2 a b = b).
Proof. unfold min2. case_decide; split_and!; auto; lra. Qed.

Lemma scaled_offset_bound (d range s sa extent : Q) :
  (0 <= d <= range)%Q → (0 < s <= sa)%Q → (0 < extent)%Q →
  ((0 < range)%Q → (sa * range == extent)%Q) →
  (0 <= d * s <= extent)%Q.
Proof.
  intros [Hd0 Hd] [Hs0 Hs] Hext Hsa. split; [nra|].
  destruct (decide (0 < range)%Q) as [Hr|Hr].
  - specialize (Hsa Hr). nra.
  - assert (d == 0)%Q as -> by lra. lra.
Qed.

Lemma normalization_spec (np : list (Z * (Q * Q))) :
  np ≠ [] →
  ∃ fr, normalization np = Ok fr
        ∧ (0 < scale fr)%Q
        ∧ Forall (in_canvas fr) np.
Proof.
  intros Hne. unfold normalization.
  set (all_x := (λ item, fst (snd item)) <$> np).
  set (all_y := (λ item, snd (snd item)) <$> np).
  assert (Hx : all_x ≠ []) by (by destruct np).
  assert (Hy : all_y ≠ []) by (by destruct np).
  destruct (py_min_nonempty all_x Hx) as [x0 Hx0].
  destruct (py_max_nonempty all_x Hx) as [x1 Hx1].
  destruct (py_min_nonempty all_y Hy) as [y0 Hy0].
  destruct (py_max_nonempty all_y Hy) as [y1 Hy1].
  rewrite Hx0, Hx1, Hy0, Hy1. simpl.
  apply py_min_Ok in Hx0 as [_ Hx0]. apply py_max_Ok in Hx1 as [_ Hx1].
  apply py_min_Ok in Hy0 as [_ Hy0]. apply py_max_Ok in Hy1 as [_ Hy1].
  set (rx := (x1 + (x1 - x0) * padding - (x0 - (x1 - x0) * padding))%Q).
  set (ry := (y1 + (y1 - y0) * padding - (y0 - (y1 - y0) * padding))%Q).
  destruct (axis_scale_spec (svg_width - 2 * margin) rx)
    as (sx & -> & Hsx0 & Hsx & _); [done|].
  destruct (axis_scale_spec (svg_height - 2 * margin) ry)
    as (sy & -> & Hsy0 & Hsy & _); [done|].
  simpl. eexists. split; [done|]. simpl.
  destruct (min2_spec sx sy) as (Hmx & Hmy & Hm).
  assert (Hs0 : (0 < min2 sx sy)%Q) by (destruct Hm as [-> | ->]; done).
  split; [done|]. apply Forall_forall. intros [k [x y]] Hin.
  assert (Hxin : x ∈ all_x).
  { apply list_elem_of_fmap. by exists (k, (x, y)). }
  assert (Hyin : y ∈ all_y).
  { apply list_elem_of_fmap. by exists (k, (x, y)). }
  specialize (Hx0 x Hxin). specialize (Hx1 x Hxin).
  specialize (Hy0 y Hyin). specialize (Hy1 y Hyin).
  unfold in_canvas. simpl. unfold padding in *. split.
  - apply (scaled_offset_bound _ rx _ sx); [unfold rx; lra|done|done|done].
  - apply (scaled_offset_bound _ ry _ sy); [unfold ry; lra|done|done|done].
Qed.

(** ** Labels *)

Lemma label_of_Ok idx :
  0 ≤ idx < max_labelled →
  ∃ s, label_of idx = Ok s
       ∧ (idx < 26 → s = [65 + idx])
       ∧ (26 ≤ idx → s = [65 + (idx `div` 26 - 1); 65 + idx `mod` 26]).
Proof.
  unfold max_labelled. intros Hidx. unfold label_of, chr.
  pose proof (Z.mod_pos_bound idx 26 eq_refl) as Hmod.
  destruct (decide (idx < 26)) as [Hlt|Hge].
  - rewrite decide_True by lia. exists [65 + idx]. split_and!; [done|done|lia].
  - assert (Hdiv : 1 ≤ idx `div` 26 < 1114048).
    { split.
      - apply Z.div_le_lower_bound; lia.
      - apply Z.div_lt_upper_bound; lia. }
    rewrite decide_True by lia. simpl. rewrite decide_True by lia. simpl.
    eexists. split_and!; [done|lia|done].
Qed.

Lemma label_of_Raise idx :
  max_labelled ≤ idx → label_of idx = Raise ValueError.
Proof.
  unfold max_labelled. intros Hidx. unfold label_of, chr.
  destruct (decide (idx < 26)) as [Hlt|_]; [lia|].
  assert (Hdiv : 1114048 ≤ idx `div` 26) by (apply Z.div_le_lower_bound; lia).
  destruct (decide (0 ≤ 65 + (idx `div` 26 - 1) < 1114112)) as [Hc|_]; [lia|done].
Qed.

Lemma label_of_cases idx :
  0 ≤ idx →
  match label_of idx with
  | Ok _ => idx < max_labelled
  | Raise e => e = ValueError ∧ max_labelled ≤ idx
  end.
Proof.
  intros H0. destruct (decide (idx < max_labelled)) as [Hlt|Hge].
  - destruct (label_of_Ok idx) as (s & -> & _); [lia|done].
  - rewrite label_of_Raise by lia. split; [done|lia].
Qed.

(** ** Loops *)

Lemma elem_of_enumerate_from {A} (l : list A) i idx (a : A) :
  (idx, a) ∈ enumerate_from i l →
  i ≤ idx < i + Z.of_nat (length l) ∧ a ∈ l.
Proof.
  revert i. induction l as [|b l IH]; intros i; simpl.
  - by intros ?%elem_of_nil.
  - intros [[= -> ->]|Hin]%elem_of_cons.
    + split; [lia|left].
    + apply IH in Hin as [? ?]. split; [lia|by right].
Qed.

Section for_each_result.
Context {A S : Type} (body : S → A → result S).
Context (I : list A → S → Prop) (T : A → Prop) (X : exn → Prop).

(** Loop rule: [I] relates the items already visited to the loop
    variables; an iteration raises only on an item outside [T]. *)
Lemma for_each_result_from pre l s :
  I pre s →
  (∀ pre' a post s, pre ++ l = pre' ++ a :: post → I pre' s →
     match body s a with
     | Ok s' => I (pre' ++ [a]) s'
     | Raise e => X e ∧ ¬ T a
     end) →
  match for_each body l s with
  | Ok s' => I (pre ++ l) s'
  | Raise e => X e ∧ ¬ Forall T l
  end.
Proof.
  revert pre s. induction l as [|a l IH]; intros pre s HI Hbody; simpl.
  - by rewrite app_nil_r.
  - pose proof (Hbody pre a l s eq_refl HI) as Ha.
    unfold mbind, result_bind. destruct (body s a) as [s'|e].
    + specialize (IH (pre ++ [a]) s' Ha). rewrite <- app_assoc in IH.
      simpl in IH. specialize (IH Hbody).
      destruct (for_each body l s') as [s''|e]; [done|].
      destruct IH as [? Hn]. split; [done|].
      intros Hall. apply Hn. by apply Forall_cons in Hall as [_ ?].
    + destruct Ha as [? Hn]. split; [done|].
      intros Hall. apply Hn. by apply Forall_cons in Hall as [? _].
Qed.

Lemma for_each_result_rule l s :
  I [] s →
  (∀ pre a post s, l = pre ++ a :: post → I pre s →
     match body s a with
     | Ok s' => I (pre ++ [a]) s'
     | Raise e => X e ∧ ¬ T a
     end) →
  match for_each body l s with
  | Ok s' => I l s'
  | Raise e => X e ∧ ¬ Forall T l
  end.
Proof. intros HI Hbody. by apply (for_each_result_from [] l s). Qed.
End for_each_result.

Section for_each_script.
Context {A S : Type} (body : S → A → Script S).
Context (I : S → World → Prop).

(** Loop rule for a body that never raises. *)
Lemma for_each_script_rule l s w :
  I s w →
  (∀ s a w, a ∈ l → I s w → ∃ s' w', body s a w = (Ok s', w') ∧ I s' w') →
  ∃ s' w', for_each body l s w = (Ok s', w') ∧ I s' w'.
Proof.
  revert s w. induction l as [|a l IH]; intros s w HI Hbody; simpl.
  - by exists s, w.
  - destruct (Hbody s a w) as (s1 & w1 & Hrun & HI1); [left|done|].
    unfold mbind, Script_bind. rewrite Hrun. apply IH; [done|].
    intros s2 b w2 Hb. apply Hbody. by right.
Qed.
End for_each_script.

(** ** The node loop *)

Lemma node_body_step fr pre s idx k (px py : Q) :
  0 ≤ idx → in_canvas fr (k, (px, py)) → node_inv fr pre s →
  match node_body fr s (idx, (k, (px, py))) with
  | Ok s' => node_inv fr (pre ++ [(idx, (k, (px, py)))]) s'
  | Raise e => e = ValueError ∧ ¬ idx < max_labelled
  end.
Proof.
  intros Hidx [Hcx Hcy] (Hids & Hok & Hlab & Hlt & Hmap).
  destruct s as [nodes m]. simpl in *. unfold node_body.
  pose proof (label_of_cases idx Hidx) as Hl.
  destruct (label_of idx) as [lbl|e] eqn:Hlbl; simpl; [|split; [tauto|lia]].
  unfold node_inv. simpl. split_and!.
  - by rewrite !fmap_app, Hids.
  - apply Forall_app. split; [done|]. apply Forall_singleton.
    unfold node_ok, margin, svg_width, svg_height in *. simpl. split; split.
    + apply (py_round_ge _ 2 25). change (inject_Z 25) with 25%Q. lra.
    + apply (py_round_le _ 2 725). change (inject_Z 725) with 725%Q. lra.
    + apply (py_round_ge _ 2 25). change (inject_Z 25) with 25%Q. lra.
    + apply (py_round_le _ 2 525). change (inject_Z 525) with 525%Q. lra.
  - apply Forall2_app; [done|]. constructor; [|constructor]. by unfold emits.
  - apply Forall_app. split; [done|]. by apply Forall_singleton.
  - intros k'. rewrite fmap_app. simpl.
    destruct (decide (k = k')) as [->|Hne].
    + rewrite lookup_insert_eq. intros _. split; [done|].
      apply elem_of_app. right. left.
    + rewrite lookup_insert_ne by done. intros [? ?]%Hmap.
      split; [done|]. apply elem_of_app. by left.
Qed.

Lemma node_loop_spec fr (np : list (Z * (Q * Q))) :
  Forall (in_canvas fr) np →
  match for_each (node_body fr) (enumerate np) ([], ∅) with
  | Ok s => node_inv fr (enumerate np) s
  | Raise e => e = ValueError ∧ max_labelled < Z.of_nat (length np)
  end.
Proof.
  intros Hcanvas. rewrite Forall_forall in Hcanvas.
  assert (Hinit : node_inv fr [] ([], ∅)).
  { unfold node_inv. simpl. split_and!; try done.
    intros k [? Hk]. by rewrite lookup_empty in Hk. }
  assert (Hstep : ∀ pre a post s,
            enumerate np = pre ++ a :: post → node_inv fr pre s →
            match node_body fr s a with
            | Ok s' => node_inv fr (pre ++ [a]) s'
            | Raise e => e = ValueError ∧ ¬ a.1 < max_labelled
            end).
  { intros pre [idx [k [px py]]] post s Heq Hinv.
    assert (Hin : (idx, (k, (px, py))) ∈ enumerate np).
    { rewrite Heq. apply elem_of_app. right. left. }
    apply elem_of_enumerate_from in Hin as [Hidx Hin].
    apply node_body_step; [simpl; lia|by apply Hcanvas|done]. }
  pose proof (for_each_result_rule (node_body fr) (node_inv fr)
                (λ it, it.1 < max_labelled) (λ e, e = ValueError)
                (enumerate np) ([], ∅) Hinit Hstep) as Hrule.
  destruct (for_each (node_body fr) (enumerate np) ([], ∅)) as [s|e]; [done|].
  destruct Hrule as [-> Hn]. split; [done|].
  destruct (decide (max_labelled < Z.of_nat (length np))); [done|].
  destruct Hn. apply Forall_forall. intros [idx it] Hin.
  apply elem_of_enumerate_from in Hin as [Hidx _]. simpl. lia.
Qed.

(** ** The edge loop *)

Lemma edge_body_step node_id_map w0 edges e w :
  edge_inv node_id_map w0 edges w →
  ∃ edges' w', edge_body node_id_map edges e w = (Ok edges', w')
               ∧ edge_inv node_id_map w0 edges' w'.
Proof.
  intros (Hf & Hs & He & Hall). destruct e as [u v]. unfold edge_body.
  destruct (decide (is_Some (node_id_map !! u) ∧ is_Some (node_id_map !! v)))
    as [[[su Hu] [sv Hv]]|_].
  - unfold mbind, Script_bind, uniform, random, lift, getitem. simpl.
    rewrite Hu, Hv. simpl. eexists _, _. split; [done|].
    unfold edge_inv. simpl. split_and!; try done.
    apply Forall_app. split; [done|]. apply Forall_singleton. simpl.
    split_and!; [by exists u|by exists v|].
    exists (drawn w). by rewrite He.
  - exists edges, w. split; [done|]. by unfold edge_inv.
Qed.

Lemma edge_loop_spec node_id_map raw_edges w :
  ∃ edges w',
    for_each (edge_body node_id_map) raw_edges [] w = (Ok edges, w')
    ∧ edge_inv node_id_map w edges w'.
Proof.
  apply (for_each_script_rule (edge_body node_id_map)
           (edge_inv node_id_map w)).
  - by unfold edge_inv.
  - intros edges e w1 _. apply edge_body_step.
Qed.

(** ** The guarded block and the whole script *)

Lemma fmap_enumerate_from {A B} (f : A → B) (l : list A) i :
  (λ it, f it.2) <$> enumerate_from i l = f <$> l.
Proof.
  revert i. induction l as [|a l IH]; intros i; simpl; [done|].
  by rewrite IH.
Qed.

Lemma enumerate_from_below {A} (l : list A) i M :
  Forall (λ it, it.1 < M) (enumerate_from i l) → i ≤ M →
  i + Z.of_nat (length l) ≤ M.
Proof.
  revert i. induction l as [|a l IH]; intros i Hall Hi; simpl in *; [lia|].
  apply Forall_cons in Hall as [Ha Hall]. simpl in Ha.
  specialize (IH (i + 1) Hall). lia.
Qed.

Lemma Script_bind_run {A B} (m : Script A) (f : A → Script B) w :
  (m ≫= f) w = match m w with
               | (Ok a, w') => f a w'
               | (Raise e, w') => (Raise e, w')
               end.
Proof. done. Qed.

Lemma convert_spec G (np : list (Z * (Q * Q))) w :
  np ≠ [] →
  match convert G np w with
  | (Ok (nodes, edges, fr), w') =>
      normalization np = Ok fr
      ∧ file w' = file w ∧ stdout w' = stdout w ∧ entropy w' = entropy w
      ∧ emitted np w nodes edges
  | (Raise e, w') =>
      e = ValueError ∧ max_labelled < Z.of_nat (length np) ∧ w' = w
  end.
Proof.
  intros Hne. unfold convert.
  destruct (normalization_spec np Hne) as (fr & Hfr & _ & Hcanvas).
  unfold mbind at 1, Script_bind at 1, lift at 1. rewrite Hfr.
  pose proof (node_loop_spec fr np Hcanvas) as Hloop.
  unfold mbind at 1, Script_bind at 1, lift at 1.
  destruct (for_each (node_body fr) (enumerate np) ([], ∅))
    as [[nodes node_id_map]|e]; [|by destruct Hloop as [-> ?]].
  destruct Hloop as (Hids & Hok & Hlab & Hlt & Hmap). simpl in *.
  destruct (edge_loop_spec node_id_map (G_edges G) w)
    as (edges & w' & Hrun & Hf & Hs & He & Hall).
  rewrite Script_bind_run, Hrun. simpl.
  split_and!; try done. unfold emitted. split_and!; try done.
  - apply (enumerate_from_below np 0) in Hlt; unfold max_labelled in *; lia.
  - rewrite Hids. apply (fmap_enumerate_from (λ p, str p.1)).
  - intros fr' Hfr'. rewrite Hfr in Hfr'. by injection Hfr' as <-.
  - eapply Forall_impl; [exact Hall|]. simpl.
    intros e ([u Hu] & [v Hv] & Hw).
    destruct (Hmap u) as [Hu' ?]; [by rewrite Hu|].
    destruct (Hmap v) as [Hv' ?]; [by rewrite Hv|].
    rewrite Hu in Hu'. rewrite Hv in Hv'.
    injection Hu' as ->. injection Hv' as ->. done.
Qed.

Lemma main_spec G w :
  match main G w with
  | (Ok fr, w') =>
      ∃ nodes edges,
        file w' = Some (mkDocument nodes edges)
        ∧ entropy w' = entropy w
        ∧ match fr with
          | Some f => normalization (node_positions G) = Ok f
          | None => node_positions G = []
          end
        ∧ emitted (node_positions G) w nodes edges
  | (Raise e, w') =>
      e = ValueError
      ∧ max_labelled < Z.of_nat (length (node_positions G))
      ∧ file w' = file w
  end.
Proof.
  unfold main. unfold mbind at 1 2, Script_bind at 1 2, print at 1 2.
  simpl. set (w1 := mkWorld _ _ _ _).
  destruct (node_positions G) as [|p np] eqn:Hnp.
  - simpl. exists [], []. by split_and!.
  - assert (Hne : p :: np ≠ []) by done.
    pose proof (convert_spec G (p :: np) w1 Hne) as Hconv.
    rewrite !Script_bind_run.
    destruct (convert G (p :: np) w1) as [[[[nodes edges] fr]|e] w2].
    + destruct Hconv as (Hfr & Hf & Hs & He & Hem).
      unfold mbind, Script_bind, mret, Script_ret, print, dump. simpl.
      exists nodes, edges. split_and!; try done.
    + destruct Hconv as (-> & Hlen & ->). done.
Qed.

Lemma length_dict_set {V} (d : list (Z * V)) k (v : V) :
  dict_set d k v ≠ [] ∧ (length (dict_set d k v) ≤ S (length d))%nat.
Proof.
  induction d as [|[k' v'] d [_ IH]]; simpl; [split; [done|lia]|].
  case_decide; simpl; split; try done; lia.
Qed.

Lemma length_node_positions G :
  (length (node_positions G) ≤ length (G_nodes G))%nat
  ∧ (G_nodes G ≠ [] → node_positions G ≠ []).
Proof.
  unfold node_positions.
  set (f := λ (d : list (Z * (Q * Q))) '(node_id, data),
              dict_set d node_id
                (default 0%Q (data_x data), default 0%Q (data_y data))).
  assert (Hgen : ∀ l d,
            (length (foldl f d l) ≤ length d + length l)%nat
            ∧ (d ≠ [] ∨ l ≠ [] → foldl f d l ≠ [])).
  { induction l as [|[k nd] l IH]; intros d; simpl.
    - split; [lia|]. by intros [?|?].
    - destruct (IH (dict_set d k
                      (default 0%Q (data_x nd), default 0%Q (data_y nd))))
        as [Hlen Hne].
      destruct (length_dict_set d k
                  (default 0%Q (data_x nd), default 0%Q (data_y nd)))
        as [Hne' Hlen'].
      split; [lia|]. intros _. apply Hne. by left. }
  destruct (Hgen (G_nodes G) []) as [Hlen Hne]. split; [done|].
  intros HG. apply Hne. by right.
Qed.

(** The run succeeds whenever the labelling can. *)
Lemma main_total G w :
  Z.of_nat (length (G_nodes G)) ≤ max_labelled →
  ∃ (fr : option Frame) w', main G w = (Ok fr, w').
Proof.
  intros Hlen. pose proof (main_spec G w) as Hspec.
  destruct (main G w) as [[fr|e] w']; [by eauto|].
  destruct Hspec as (_ & Hbig & _).
  destruct (length_node_positions G) as [Hle _]. lia.
Qed.

Lemma main_Ok_inv G w (fr : option Frame) w' doc :
  main G w = (Ok fr, w') → file w' = Some doc →
  entropy w' = entropy w
  ∧ match fr with
    | Some f => normalization (node_positions G) = Ok f
    | None => node_positions G = []
    end
  ∧ emitted (node_positions G) w (nodes doc) (edges doc).
Proof.
  intros Hrun Hfile. pose proof (main_spec G w) as Hspec.
  rewrite Hrun in Hspec. destruct Hspec as (ns & es & Hf & He & Hfr & Hem).
  rewrite Hfile in Hf. by injection Hf as ->.
Qed.

Lemma enumerate_from_lookup_inv {A} (l : list A) i (j : nat) idx (a : A) :
  enumerate_from i l !! j = Some (idx, a) → idx = i + Z.of_nat j.
Proof.
  revert i j. induction l as [|b l IH]; intros i [|j]; simpl; try done.
  - intros [= <- _]. lia.
  - intros Hj. apply IH in Hj. lia.
Qed.

(** C7, as stated, fails on the graph without nodes: the run ends normally
    and writes empty lists, but [scale] is never assigned, so there is no
    scale of 1 on that run. *)
Lemma C7_counterexample :
  G_nodes no_nodes = []
  ∧ (main no_nodes sample_world).1 = Ok None
  ∧ ¬ (∃ fr, (main no_nodes sample_world).1 = Ok (Some fr)
             ∧ (scale fr == 1)%Q).
Proof.
  split_and!; [done|done|]. by intros (fr & Hfr & _).
Qed.

(** C7, amended. On a graph without nodes the guard [if node_positions:]
    skips the whole block: no exception is raised, no scale is computed,
    and the run ends normally having written empty node and edge lists.
    No run raises [ZeroDivisionError].  The fallback to 1 is that of the
    per-axis scale: it is 1 whenever the padded range of the axis is not
    positive, and the division is never reached with a zero range. *)
Theorem C7_no_nodes G w :
  G_nodes G = [] →
  (∃ w', main G w = (Ok None, w')
         ∧ file w' = Some (mkDocument [] [])
         ∧ stdout w' = stdout w
                       ++ [FetchingOSM; NetworkHas 0 (length (G_edges G));
                           Created 0 0; SavedTo; NodeCount 0; EdgeCount 0])
  ∧ (∀ G' w', (main G' w').1 ≠ Raise ZeroDivisionError)
  ∧ (∀ extent range,
       axis_scale extent range ≠ Raise ZeroDivisionError
       ∧ (¬ (0 < range)%Q → axis_scale extent range = Ok 1%Q)).
Proof.
  intros HG. split_and!.
  - unfold main, node_positions. rewrite HG. simpl.
    eexists. split_and!; [done|done|]. simpl.
    by rewrite <- !app_assoc.
  - intros G' w' Hraise. pose proof (main_spec G' w') as Hspec.
    destruct (main G' w') as [[fr|e] w2]; [done|].
    simpl in Hraise. injection Hraise as ->. by destruct Hspec as [? _].
  - intros extent range. unfold axis_scale, py_div.
    destruct (decide (0 < range)%Q) as [Hr|Hr].
    + split; [|done]. rewrite decide_False; [done|lra].
    + done.
Qed.

Lemma C7_witness :
  (∃ w', main no_nodes sample_world = (Ok None, w')
         ∧ file w' = Some (mkDocument [] [])
         ∧ stdout w' = stdout sample_world
                       ++ [FetchingOSM; NetworkHas 0 (length (G_edges no_nodes));
                           Created 0 0; SavedTo; NodeCount 0; EdgeCount 0])
  ∧ (∀ G' w', (main G' w').1 ≠ Raise ZeroDivisionError)
  ∧ (∀ extent range,
       axis_scale extent range ≠ Raise ZeroDivisionError
       ∧ (¬ (0 < range)%Q → axis_scale extent range = Ok 1%Q)).
Proof.
  apply (C7_no_nodes no_nodes sample_world). reflexivity.
Defined.

(** C10. For an index below 702 the label is made of letters A-Z only: the
    one letter [chr(65 + idx)] below 26, the two letters
    [chr(65 + idx // 26 - 1)] and [chr(65 + idx % 26)] from 26 on; at index
    702 the label starts with '[', which is not a letter.  The node written
    at position [i] carries the label of index [i]. *)
Theorem C10_labels :
  (∀ idx, 0 ≤ idx < 702 →
     ∃ s, label_of idx = Ok s
          ∧ Forall (λ c, 65 ≤ c ≤ 90) s
          ∧ (idx < 26 → s = [65 + idx])
          ∧ (26 ≤ idx → s = [65 + (idx `div` 26 - 1); 65 + idx `mod` 26]))
  ∧ (∃ idx s, 702 ≤ idx ∧ label_of idx = Ok s
              ∧ ¬ Forall (λ c, 65 ≤ c ≤ 90) s)
  ∧ (∀ G w (fr : option Frame) w' doc (i : nat) n,
       main G w = (Ok fr, w') → file w' = Some doc →
       nodes doc !! i = Some n → label_of (Z.of_nat i) = Ok (label n)).
Proof.
  split_and!.
  - intros idx Hidx.
    destruct (label_of_Ok idx) as (s & Hs & Hone & Htwo);
      [unfold max_labelled; lia|].
    exists s. split_and!; try done.
    pose proof (Z.mod_pos_bound idx 26 eq_refl) as Hmod.
    destruct (decide (idx < 26)) as [Hlt|Hge].
    + rewrite (Hone Hlt). apply Forall_singleton. lia.
    + rewrite Htwo by lia.
      assert (Hdiv : 1 ≤ idx `div` 26 < 27).
      { split.
        - apply Z.div_le_lower_bound; lia.
        - apply Z.div_lt_upper_bound; lia. }
      repeat constructor; lia.
  - exists 702, [91; 65]. split_and!; [lia|done|].
    intros Hall. apply Forall_cons in Hall as [Hc _]. lia.
  - intros G w fr w' doc i n Hrun Hfile Hi.
    destruct (main_Ok_inv G w fr w' doc Hrun Hfile)
      as (_ & Hfr & _ & Hids & _ & Hem & _).
    destruct fr as [f|].
    + specialize (Hem f Hfr).
      destruct (Forall2_lookup_l _ _ _ _ _ Hem Hi) as ([idx it] & Hit & Hn).
      apply enumerate_from_lookup_inv in Hit as ->.
      destruct it as [k [px py]]. by destruct Hn as (_ & _ & _ & Hl).
    + rewrite Hfr in Hids. simpl in Hids.
      apply fmap_nil_inv in Hids. by rewrite Hids in Hi.
Qed.

Lemma C10_witness :
  (∃ s, label_of 27 = Ok s
        ∧ Forall (λ c, 65 ≤ c ≤ 90) s
        ∧ (27 < 26 → s = [65 + 27])
        ∧ (26 ≤ 27 → s = [65 + (27 `div` 26 - 1); 65 + 27 `mod` 26]))
  ∧ label_of (Z.of_nat 1)
    = Ok (label (mkNode "7" (39167 # 100) (48333 # 100) [66])).
Proof.
  split.
  - apply (proj1 C10_labels 27). lia.
  - apply (proj2 (proj2 C10_labels) sample sample_world (Some sample_frame)
             sample_world_after sample_doc 1%nat);
      [vm_compute; reflexivity | reflexivity | reflexivity].
Defined.

End FetcherFacts.

(** * The two scripts in sequence *)

Module PipelineFacts.
Import FetcherFacts FilterFacts.

Lemma no_dangling_filtered data min_x :
  no_dangling (Filter.filtered_data min_x data).
Proof.
  unfold no_dangling. apply Forall_forall. intros e He. simpl in *.
  apply elem_of_edges_to_keep in He as (_ & Hfrom & Hto).
  unfold Filter.node_ids_to_keep in *.
  by rewrite !elem_of_list_to_set in Hfrom, Hto.
Qed.

(** C5. A run of the fetcher that ends normally has written a document in
    which every edge joins two ids of the node list (and it does end
    normally on a graph of at most 28965248 nodes); a run of the filter
    that ends normally has written such a document as well, whatever it
    read. *)
Theorem C5_no_dangling_edge G w (fr : option Fetcher.Frame) w' doc :
  Fetcher.main G w = (Ok fr, w') → file w' = Some doc →
  no_dangling doc
  ∧ (∀ data min_x out,
       Filter.filter_network data = Ok (min_x, out) → no_dangling out)
  ∧ (∀ w1 w2, Filter.main w1 = (Ok (), w2) →
              ∃ out, file w2 = Some out ∧ no_dangling out)
  ∧ (∀ G0 w0, Z.of_nat (length (Fetcher.G_nodes G0)) ≤ 28965248 →
              ∃ (fr0 : option Fetcher.Frame) w0',
                Fetcher.main G0 w0 = (Ok fr0, w0')).
Proof.
  intros Hrun Hfile.
  destruct (main_Ok_inv G w fr w' doc Hrun Hfile)
    as (_ & _ & _ & _ & _ & _ & Hedges).
  split_and!.
  - unfold no_dangling. eapply Forall_impl; [exact Hedges|].
    by intros e (? & ? & _).
  - intros data min_x out [_ ->]%filter_network_inv.
    apply no_dangling_filtered.
  - intros w1 w2 (data & min_x & out & _ & Hn & Hf)%main_inv.
    exists out. split; [done|].
    apply filter_network_inv in Hn as [_ ->]. apply no_dangling_filtered.
  - intros G0 w0. apply main_total.
Qed.

Lemma C5_witness :
  no_dangling Fetcher.sample_doc
  ∧ (∀ data min_x out,
       Filter.filter_network data = Ok (min_x, out) → no_dangling out)
  ∧ (∀ w1 w2, Filter.main w1 = (Ok (), w2) →
              ∃ out, file w2 = Some out ∧ no_dangling out)
  ∧ (∀ G0 w0, Z.of_nat (length (Fetcher.G_nodes G0)) ≤ 28965248 →
              ∃ (fr0 : option Fetcher.Frame) w0',
                Fetcher.main G0 w0 = (Ok fr0, w0')).
Proof.
  apply (C5_no_dangling_edge Fetcher.sample Fetcher.sample_world
           (Some Fetcher.sample_frame) Fetcher.sample_world_after
           Fetcher.sample_doc);
    [vm_compute; reflexivity | reflexivity].
Defined.

Lemma drawn_weight_range w q :
  (∀ i, (0 <= entropy w i < 1)%Q) → Fetcher.drawn_weight w q →
  (1 <= q <= 20)%Q ∧ ∃ r, (1 <= r < 20)%Q ∧ q = py_round r 1.
Proof.
  intros Hrng [i ->]. specialize (Hrng i). split; [split|].
  - apply (py_round_ge _ 1 1). change (inject_Z 1) with 1%Q. lra.
  - apply (py_round_le _ 1 20). change (inject_Z 20) with 20%Q. lra.
  - eexists. split; [|done]. lra.
Qed.

(** C8. When [random.random()] returns values in [0, 1), every weight the
    fetcher writes is [round(r, 1)] of some [r] in [1, 20) and lies in
    [1, 20], so it is positive.  The edges the filter writes are input
    edges, unchanged in every field, in their input order. *)
Theorem C8_weights G w (fr : option Fetcher.Frame) w' doc :
  (∀ i, (0 <= entropy w i < 1)%Q) →
  Fetcher.main G w = (Ok fr, w') → file w' = Some doc →
  Forall (λ e, (1 <= weight e <= 20)%Q ∧ (0 < weight e)%Q
               ∧ ∃ r, (1 <= r < 20)%Q ∧ weight e = py_round r 1)
         (edges doc)
  ∧ (∀ data min_x out,
       Filter.filter_network data = Ok (min_x, out) →
       sublist (edges out) (edges data)
       ∧ ∀ e, e ∈ edges out → e ∈ edges data).
Proof.
  intros Hrng Hrun Hfile.
  destruct (main_Ok_inv G w fr w' doc Hrun Hfile)
    as (_ & _ & _ & _ & _ & _ & Hedges).
  split.
  - eapply Forall_impl; [exact Hedges|]. intros e (_ & _ & Hw).
    destruct (drawn_weight_range w (weight e) Hrng Hw) as [[H1 H20] Hr].
    split_and!; [done|done|lra|done].
  - intros data min_x out [_ ->]%filter_network_inv. simpl. split.
    + apply sublist_filter.
    + intros e He. by apply elem_of_edges_to_keep in He as [? _].
Qed.

Lemma C8_witness :
  Forall (λ e, (1 <= weight e <= 20)%Q ∧ (0 < weight e)%Q
               ∧ ∃ r, (1 <= r < 20)%Q ∧ weight e = py_round r 1)
         (edges Fetcher.sample_doc)
  ∧ (∀ data min_x out,
       Filter.filter_network data = Ok (min_x, out) →
       sublist (edges out) (edges data)
       ∧ ∀ e, e ∈ edges out → e ∈ edges data).
Proof.
  apply (C8_weights Fetcher.sample Fetcher.sample_world
           (Some Fetcher.sample_frame) Fetcher.sample_world_after
           Fetcher.sample_doc).
  - intros i. simpl. unfold Qle, Qlt. simpl.
    pose proof (Z.mod_pos_bound (Z.of_nat i) 7 eq_refl). lia.
  - vm_compute. reflexivity.
  - reflexivity.
Defined.

End PipelineFacts.

(** * Further properties of rounding *)

Lemma round_half_even_mono (q1 q2 : Q) :
  (q1 <= q2)%Q → round_half_even q1 ≤ round_half_even q2.
Proof.
  intros Hle. pose proof (Qfloor_resp_le q1 q2 Hle) as Hf.
  pose proof (Qfloor_le q1) as Hl1. pose proof (Qlt_floor q1) as Hu1.
  pose proof (Qfloor_le q2) as Hl2. pose proof (Qlt_floor q2) as Hu2.
  destruct (decide (Qfloor q1 = Qfloor q2)) as [Heq|Hne].
  - unfold round_half_even. rewrite <- Heq.
    repeat case_decide; try destruct (Z.even (Qfloor q1)); try lia; lra.
  - transitivity (Qfloor q2).
    + unfold round_half_even.
      repeat case_decide; try destruct (Z.even (Qfloor q1)); lia.
    + apply round_half_even_ge, Qfloor_le.
Qed.

Lemma round_half_even_exact (q : Q) (z : Z) :
  (q == inject_Z z)%Q → round_half_even q = z.
Proof.
  intros Heq. apply Z.le_antisymm.
  - apply round_half_even_le. rewrite Heq. apply Qle_refl.
  - apply round_half_even_ge. rewrite Heq. apply Qle_refl.
Qed.

Lemma round_half_even_error (q : Q) :
  (inject_Z (round_half_even q) - (1 # 2) <= q)%Q
  ∧ (q <= inject_Z (round_half_even q) + (1 # 2))%Q.
Proof.
  pose proof (Qfloor_le q) as Hl. pose proof (Qlt_floor q) as Hu.
  rewrite inject_Z_plus in Hu. change (inject_Z 1) with 1%Q in Hu.
  unfold round_half_even.
  repeat case_decide; try destruct (Z.even (Qfloor q));
    rewrite ?inject_Z_plus; change (inject_Z 1) with 1%Q; split; lra.
Qed.

Lemma py_round_mono (v1 v2 : Q) (ndigits : nat) :
  (v1 <= v2)%Q → (py_round v1 ndigits <= py_round v2 ndigits)%Q.
Proof.
  intros Hle. unfold py_round, Qle. simpl.
  apply Z.mul_le_mono_nonneg_r; [lia|].
  apply round_half_even_mono. apply Qmult_le_compat_r; [done|].
  by unfold Qle.
Qed.

Lemma py_round_exact (v : Q) (ndigits : nat) (z : Z) :
  (v == inject_Z z)%Q →
  py_round v ndigits = (z * Z.pos (pow10 ndigits)) # pow10 ndigits.
Proof.
  intros Heq. unfold py_round. f_equal. apply round_half_even_exact.
  rewrite Heq, inject_Z_mult. reflexivity.
Qed.

(** * Further properties of scripts/filter_network.py *)

Module FilterMore.
Import Filter FilterFacts.

Implicit Types (data out : Document) (n r : Node) (e : Edge) (w : World).

(** X1. After a successful run every input node that carries a reference
    id is still there, one of them has [x = min_x], and so the node list
    written is never empty. *)
Theorem X1_reference_nodes_survive data min_x out :
  filter_network data = Ok (min_x, out) →
  (∀ r, r ∈ nodes data → id r ∈ ref_nodes → r ∈ nodes out)
  ∧ (∃ r, r ∈ nodes out ∧ id r ∈ ref_nodes ∧ x r = min_x)
  ∧ nodes out ≠ [].
Proof.
  intros [Hmin ->]%filter_network_inv. simpl.
  apply py_min_Ok in Hmin as [Hin Hle].
  assert (Hkeep : ∀ r, r ∈ nodes data → id r ∈ ref_nodes →
                       r ∈ nodes_to_keep min_x data).
  { intros r Hr Hid. apply elem_of_nodes_to_keep. split; [done|].
    apply Hle, elem_of_ref_x_coords. eauto. }
  apply elem_of_ref_x_coords in Hin as (r & Hr & Hid & Hx).
  split_and!; [done| |].
  - exists r. split_and!; [by apply Hkeep|done|done].
  - intros Hnil. specialize (Hkeep r Hr Hid). rewrite Hnil in Hkeep.
    by apply elem_of_nil in Hkeep.
Qed.

Lemma X1_witness :
  (∀ r, r ∈ nodes sample → id r ∈ ref_nodes → r ∈ nodes sample_kept)
  ∧ (∃ r, r ∈ nodes sample_kept ∧ id r ∈ ref_nodes ∧ x r = 5%Q)
  ∧ nodes sample_kept ≠ [].
Proof.
  apply (X1_reference_nodes_survive sample 5%Q sample_kept). reflexivity.
Defined.

(** X2. The nodes written by a successful run are input nodes, unchanged
    in every field and in their input order; neither list grows, and a
    node left of the threshold makes the node list strictly shorter. *)
Theorem X2_kept_nodes_unchanged data min_x out :
  filter_network data = Ok (min_x, out) →
  sublist (nodes out) (nodes data)
  ∧ (length (nodes out) ≤ length (nodes data))%nat
  ∧ (length (edges out) ≤ length (edges data))%nat
  ∧ (∀ n, n ∈ nodes data → (x n < min_x)%Q →
          (n ∉ nodes out)
          ∧ (length (nodes out) < length (nodes data))%nat).
Proof.
  intros [_ ->]%filter_network_inv. simpl. unfold nodes_to_keep, edges_to_keep.
  split_and!.
  - apply sublist_filter.
  - apply length_filter.
  - apply length_filter.
  - intros n Hn Hlt. split.
    + rewrite list_elem_of_filter. intros [Hge _]. lra.
    + apply (length_filter_lt _ _ n); [done|]. lra.
Qed.

Lemma X2_witness :
  sublist (nodes sample_kept) (nodes sample)
  ∧ (length (nodes sample_kept) ≤ length (nodes sample))%nat
  ∧ (length (edges sample_kept) ≤ length (edges sample))%nat
  ∧ (∀ n, n ∈ nodes sample → (x n < 5)%Q →
          (n ∉ nodes sample_kept)
          ∧ (length (nodes sample_kept) < length (nodes sample))%nat).
Proof.
  apply (X2_kept_nodes_unchanged sample 5%Q sample_kept). reflexivity.
Defined.

Lemma filter_all {A} (P : A → Prop) `{!∀ a, Decision (P a)} (l : list A) :
  Forall P l → filter P l = l.
Proof.
  induction 1 as [|a l Ha _ IH]; [done|].
  by rewrite filter_cons_True, IH.
Qed.

(** X3. When no node lies left of the threshold and no edge of the input
    dangles, a successful run writes back the document it read. *)
Theorem X3_nothing_to_drop w data min_x out :
  file w = Some data →
  filter_network data = Ok (min_x, out) →
  (∀ n, n ∈ nodes data → (min_x <= x n)%Q) →
  no_dangling data →
  out = data ∧ file (main w).2 = file w.
Proof.
  intros Hf Hrun Hall Hnd.
  assert (Hout : out = data).
  { apply filter_network_inv in Hrun as [_ ->].
    assert (Hn : nodes_to_keep min_x data = nodes data).
    { apply filter_all, Forall_forall. exact Hall. }
    assert (He : edges_to_keep min_x data = edges data).
    { unfold edges_to_keep, node_ids_to_keep. rewrite Hn.
      apply filter_all. eapply Forall_impl; [exact Hnd|].
      intros e [? ?]. by rewrite !elem_of_list_to_set. }
    unfold filtered_data. rewrite Hn, He. by destruct data. }
  split; [done|]. rewrite (main_Ok w data min_x out Hf Hrun). simpl.
  by rewrite Hf, Hout.
Qed.

Lemma X3_witness :
  sample_kept = sample_kept
  ∧ file (main (world_of sample_kept)).2 = file (world_of sample_kept).
Proof.
  apply (X3_nothing_to_drop (world_of sample_kept) sample_kept 5%Q).
  - reflexivity.
  - reflexivity.
  - intros n Hn. rewrite list_elem_of_In in Hn. simpl in Hn.
    destruct Hn as [<-|[<-|[]]]; simpl; unfold Qle; simpl; lia.
  - unfold no_dangling. simpl.
    repeat constructor; simpl;
      first [apply list_elem_of_here
            | apply list_elem_of_further, list_elem_of_here].
Defined.

(** X4. A run on a data file that is absent or holds a document has one of
    three outcomes.  Absent file: [FileNotFoundError].  No node with a
    reference id: [ValueError].  In both cases nothing was printed and the
    file is as it was.  Otherwise the run ends normally, the file holds
    the filtered document, and exactly four lines were printed, the counts
    being the lengths of the lists read and written. *)
Theorem X4_run_outcomes w :
  match main w with
  | (Ok _, w') =>
      ∃ data min_x out,
        file w = Some data
        ∧ (∃ r, r ∈ nodes data ∧ id r ∈ ref_nodes)
        ∧ filter_network data = Ok (min_x, out)
        ∧ file w' = Some out
        ∧ stdout w' = stdout w
            ++ [MinimumX min_x;
                Original (length (nodes data)) (length (edges data));
                Filtered (length (nodes out)) (length (edges out));
                FilteredSaved]
  | (Raise err, w') =>
      w' = w
      ∧ ((err = FileNotFoundError ∧ file w = None)
         ∨ (err = ValueError
            ∧ ∃ data, file w = Some data
                      ∧ ∀ n, n ∈ nodes data → id n ∉ ref_nodes))
  end.
Proof.
  destruct (file w) as [data|] eqn:Hf.
  - destruct (filter_network data) as [[min_x out]|err] eqn:Hrun.
    + rewrite (main_Ok w data min_x out Hf Hrun).
      exists data, min_x, out. split_and!; try done.
      apply filter_network_inv in Hrun as [Hmin _].
      apply py_min_Ok in Hmin as [Hin _].
      apply elem_of_ref_x_coords in Hin as (r & ? & ? & _). eauto.
    + rewrite (main_Raise w data err Hf Hrun). split; [done|]. right.
      assert (Hno : ∀ n, n ∈ nodes data → id n ∉ ref_nodes).
      { intros n Hn Hid.
        destruct (filter_network_Ok data) as (m & _ & Hok); [by eauto|].
        by rewrite Hok in Hrun. }
      rewrite (filter_network_Raise data Hno) in Hrun.
      injection Hrun as <-. eauto.
  - unfold main, mbind, Script_bind, load. rewrite Hf. split; [done|].
    by left.
Qed.

End FilterMore.

(** * Further properties of scripts/generate_network.py *)

Module FetcherMore.
Import Fetcher FetcherFacts.

Implicit Types (G : Graph) (w : World) (idx k u v : Z).

(** ** Ids *)

Lemma str_inj k k' : str k = str k' → k = k'.
Proof.
  unfold str. intros Heq. apply DecimalZ.to_int_inj.
  assert (Hnn : ∀ z, Z.to_int z ≠ Decimal.Pos Decimal.Nil
                     ∧ Z.to_int z ≠ Decimal.Neg Decimal.Nil).
  { intros [|p|p]; simpl; split; try discriminate;
      intros [= H]; by apply DecimalPos.Unsigned.to_uint_nonnil in H. }
  destruct (Hnn k) as [Hk1 Hk2]. destruct (Hnn k') as [Hk1' Hk2'].
  pose proof (NilZero.isi _ Hk1 Hk2) as H.
  pose proof (NilZero.isi _ Hk1' Hk2') as H'.
  rewrite Heq in H. rewrite H in H'. by injection H'.
Qed.

(** ** The dict of positions *)

Lemma dict_set_keys {V} (d : list (Z * V)) k (v : V) :
  (dict_set d k v).*1 = if decide (k ∈ d.*1) then d.*1 else d.*1 ++ [k].
Proof.
  induction d as [|[k' v'] d IH]; [done|].
  cbn [dict_set]. destruct (decide (k = k')) as [->|Hne].
  - rewrite !fmap_cons. cbn [fst]. rewrite decide_True; [done|left].
  - rewrite !fmap_cons, IH. cbn [fst].
    destruct (decide (k ∈ d.*1)) as [Hin|Hnin].
    + rewrite decide_True; [done|by right].
    + rewrite decide_False; [done|].
      intros [?|?]%elem_of_cons; done.
Qed.

Lemma dict_set_fresh {V} (d : list (Z * V)) k (v : V) :
  k ∉ d.*1 → dict_set d k v = d ++ [(k, v)].
Proof.
  induction d as [|[k' v'] d IH]; [done|].
  rewrite fmap_cons. cbn [dict_set fst]. intros Hnin. rewrite decide_False.
  - rewrite IH; [done|]. intros ?. apply Hnin. by right.
  - intros ->. apply Hnin. left.
Qed.

Lemma node_positions_foldl (l : list (Z * NodeData)) d :
  foldl (λ d '(node_id, data),
           dict_set d node_id
             (default 0%Q (data_x data), default 0%Q (data_y data))) d l
  = foldl (λ d item, dict_set d item.1 (position_of item).2) d l.
Proof.
  revert d. induction l as [|[k nd] l IH]; intros d; simpl; [done|].
  by rewrite IH.
Qed.

Lemma foldl_dict_set_keys (l : list (Z * NodeData)) d :
  NoDup d.*1 →
  NoDup (foldl (λ d item, dict_set d item.1 (position_of item).2) d l).*1
  ∧ ∀ k, k ∈ (foldl (λ d item, dict_set d item.1 (position_of item).2)
                d l).*1
         ↔ k ∈ d.*1 ∨ k ∈ l.*1.
Proof.
  revert d. induction l as [|[k nd] l IH]; intros d Hnd; simpl.
  - split; [done|]. intros k. rewrite elem_of_nil. tauto.
  - set (d' := dict_set d k _).
    assert (Hk : d'.*1 = if decide (k ∈ d.*1) then d.*1 else d.*1 ++ [k])
      by apply dict_set_keys.
    assert (Hnd' : NoDup d'.*1).
    { rewrite Hk. case_decide; [done|].
      apply NoDup_app. split_and!; [done| |apply NoDup_singleton].
      intros z Hz ->%list_elem_of_singleton. done. }
    destruct (IH d' Hnd') as [HN Hiff]. split; [done|].
    intros z. rewrite Hiff, Hk, elem_of_cons.
    case_decide.
    + split; [tauto|]. intros [?|[->|?]]; auto.
    + rewrite elem_of_app, list_elem_of_singleton. tauto.
Qed.

Lemma foldl_dict_set_fresh (l : list (Z * NodeData)) d :
  NoDup (d.*1 ++ l.*1) →
  foldl (λ d item, dict_set d item.1 (position_of item).2) d l
  = d ++ (position_of <$> l).
Proof.
  revert d. induction l as [|[k nd] l IH]; intros d Hnd; simpl.
  - by rewrite app_nil_r.
  - simpl in Hnd. apply NoDup_app in Hnd as (Hd & Hdisj & Hl).
    apply NoDup_cons in Hl as [Hk Hl].
    rewrite dict_set_fresh.
    + rewrite IH.
      * by rewrite <- app_assoc.
      * rewrite fmap_app. simpl. rewrite <- app_assoc. simpl.
        apply NoDup_app. split_and!; [done| |by apply NoDup_cons].
        intros z Hz. by apply Hdisj.
    + intros Hin. apply (Hdisj k Hin). left.
Qed.

Lemma node_positions_keys G :
  NoDup (node_positions G).*1
  ∧ (∀ k, k ∈ (node_positions G).*1 ↔ k ∈ (G_nodes G).*1).
Proof.
  unfold node_positions. rewrite node_positions_foldl.
  destruct (foldl_dict_set_keys (G_nodes G) []) as [HN Hiff];
    [constructor|].
  split; [done|]. intros k. rewrite Hiff. simpl. rewrite elem_of_nil. tauto.
Qed.

(** X5. [node_positions] has one entry per distinct node id of the graph,
    with 0 for a missing 'x' or 'y'; when the ids of [G.nodes] are pairwise
    distinct (as networkx guarantees) it is the node list itself, in
    order. *)
Theorem X5_node_positions G :
  NoDup (node_positions G).*1
  ∧ (∀ k, k ∈ (node_positions G).*1 ↔ k ∈ (G_nodes G).*1)
  ∧ (NoDup (G_nodes G).*1 →
     node_positions G = position_of <$> G_nodes G).
Proof.
  destruct (node_positions_keys G) as [HN Hiff]. split_and!; [done|done|].
  intros Hnd. unfold node_positions. rewrite node_positions_foldl.
  by rewrite (foldl_dict_set_fresh (G_nodes G) []).
Qed.

Lemma X5_witness :
  node_positions sample = position_of <$> G_nodes sample.
Proof.
  apply (proj2 (proj2 (X5_node_positions sample))).
  apply (bool_decide_unpack _). vm_compute. exact I.
Defined.

(** ** The run, step by step *)

Lemma main_run G w (fr : option Frame) w' :
  main G w = (Ok fr, w') →
  match node_positions G with
  | [] => fr = None ∧ w' = after_report [] [] (after_banner G w)
  | _ :: _ =>
      ∃ f nodes node_id_map edges w2,
        fr = Some f
        ∧ normalization (node_positions G) = Ok f
        ∧ for_each (node_body f) (enumerate (node_positions G)) ([], ∅)
          = Ok (nodes, node_id_map)
        ∧ for_each (edge_body node_id_map) (G_edges G) [] (after_banner G w)
          = (Ok edges, w2)
        ∧ w' = after_report nodes edges w2
  end.
Proof.
  unfold main. rewrite Script_bind_run. unfold print at 1. cbn iota beta.
  rewrite Script_bind_run. unfold print at 1. cbn iota beta.
  cbn [file stdout entropy drawn]. fold (after_banner G w).
  cbn zeta. rewrite Script_bind_run.
  destruct (node_positions G) as [|p np] eqn:Hnp.
  - unfold mret at 1, Script_ret at 1.
    unfold mbind, Script_bind, mret, Script_ret, print, dump. simpl.
    by intros [= <- <-].
  - rewrite Script_bind_run. unfold convert. rewrite Script_bind_run.
    unfold lift at 1. destruct (normalization (p :: np)) as [f|e] eqn:Hnorm;
      [|simpl; intros Hx; discriminate Hx].
    rewrite Script_bind_run. unfold lift at 1.
    destruct (for_each (node_body f) (enumerate (p :: np)) ([], ∅))
      as [[nodes node_id_map]|e] eqn:Hnodes;
      [|simpl; intros Hx; discriminate Hx].
    rewrite Script_bind_run.
    destruct (for_each (edge_body node_id_map) (G_edges G) []
                (after_banner G w)) as [[edges|e] w2] eqn:Hedges; [|simpl; intros Hx; discriminate Hx].
    unfold mbind, Script_bind, mret, Script_ret, print, dump. simpl.
    intros [= <- <-]. by exists f, nodes, node_id_map, edges, w2.
Qed.

Lemma node_loop_dom (f : Frame) items s s' k :
  for_each (node_body f) items s = Ok s' →
  is_Some (s.2 !! k) ∨ k ∈ (λ it : Z * (Z * (Q * Q)), it.2.1) <$> items →
  is_Some (s'.2 !! k).
Proof.
  revert s. induction items as [|[idx [k' [px py]]] items IH]; intros s.
  - simpl. intros [= <-] [?|Hk]; [done|]. by apply elem_of_nil in Hk.
  - destruct s as [nodes m]. cbn [for_each].
    destruct (node_body f (nodes, m) (idx, (k', (px, py))))
      as [s1|e] eqn:Hb; [|intros Hx; discriminate Hx].
    unfold node_body in Hb. destruct (label_of idx) as [lbl|e]; [|done].
    injection Hb as <-.
    unfold mbind at 1, result_bind at 1. intros Hrun Hk.
    apply (IH _ Hrun). cbn [snd fst].
    destruct (decide (k = k')) as [->|Hne].
    + left. by rewrite lookup_insert_eq.
    + rewrite lookup_insert_ne by done. rewrite fmap_cons in Hk.
      cbn [snd fst] in Hk.
      destruct Hk as [?|[?|?]%elem_of_cons]; [by left|done|by right].
Qed.

(** The keys of [node_id_map] are the node ids of the graph, each mapped
    to its decimal string. *)
Lemma node_id_map_spec G (f : Frame) nodes (node_id_map : gmap Z string) :
  normalization (node_positions G) = Ok f →
  for_each (node_body f) (enumerate (node_positions G)) ([], ∅)
  = Ok (nodes, node_id_map) →
  ∀ k, node_id_map !! k
       = if decide (k ∈ (G_nodes G).*1) then Some (str k) else None.
Proof.
  intros Hnorm Hrun k.
  assert (Hne : node_positions G ≠ []).
  { intros Hnil. by rewrite Hnil in Hnorm. }
  destruct (normalization_spec _ Hne) as (f' & Hf' & _ & Hcanvas).
  rewrite Hnorm in Hf'. injection Hf' as <-.
  pose proof (node_loop_spec f _ Hcanvas) as Hinv. rewrite Hrun in Hinv.
  destruct Hinv as (Hids & _ & _ & _ & Hmap). simpl in *.
  assert (Hkeys : (λ it : Z * (Z * (Q * Q)), it.2.1)
                    <$> enumerate (node_positions G)
                  = (node_positions G).*1).
  { apply (fmap_enumerate_from (λ p : Z * (Q * Q), p.1)). }
  destruct (node_positions_keys G) as [_ Hiff].
  destruct (decide (k ∈ (G_nodes G).*1)) as [Hin|Hnin].
  - destruct (Hmap k) as [Hk _]; [|done].
    apply (node_loop_dom f _ _ _ k Hrun). right.
    rewrite Hkeys. by apply Hiff.
  - destruct (node_id_map !! k) as [s|] eqn:Hk; [|done].
    destruct (Hmap k) as [_ Hstr]; [by rewrite Hk|].
    rewrite Hids in Hstr. unfold enumerate in Hstr.
    rewrite (fmap_enumerate_from (λ p : Z * (Q * Q), str p.1)) in Hstr.
    apply list_elem_of_fmap in Hstr as ([k2 pos] & Hs & Hin2). simpl in Hs.
    apply str_inj in Hs as ->. destruct Hnin. apply Hiff.
    apply list_elem_of_fmap. by exists (k2, pos).
Qed.

(** X6. A run that ends normally has written exactly one node per node id
    of the graph, in the order of [node_positions], its id being the
    decimal string of the graph id; the ids written are pairwise
    distinct. *)
Theorem X6_one_node_per_graph_node G w (fr : option Frame) w' doc :
  main G w = (Ok fr, w') → file w' = Some doc →
  id <$> nodes doc = str <$> (node_positions G).*1
  ∧ length (nodes doc) = length (node_positions G)
  ∧ NoDup (id <$> nodes doc)
  ∧ (∀ k, str k ∈ id <$> nodes doc ↔ k ∈ (G_nodes G).*1)
  ∧ (NoDup (G_nodes G).*1 → id <$> nodes doc = str <$> (G_nodes G).*1).
Proof.
  intros Hrun Hfile.
  destruct (main_Ok_inv G w fr w' doc Hrun Hfile)
    as (_ & _ & _ & Hids & _).
  destruct (node_positions_keys G) as [Hnd Hiff].
  assert (Hids' : id <$> nodes doc = str <$> (node_positions G).*1).
  { rewrite Hids. by rewrite <- list_fmap_compose. }
  split_and!.
  - done.
  - apply (f_equal length) in Hids'. by rewrite !length_fmap in Hids'.
  - rewrite Hids'. by apply (@NoDup_fmap_2 _ _ str str_inj).
  - intros k. rewrite Hids', <- Hiff. split.
    + intros (k' & ->%str_inj & ?)%list_elem_of_fmap. done.
    + intros ?. apply list_elem_of_fmap. eauto.
  - intros HG. rewrite Hids'. f_equal.
    unfold node_positions. rewrite node_positions_foldl.
    rewrite (foldl_dict_set_fresh (G_nodes G) []) by done. simpl.
    rewrite <- list_fmap_compose. by apply list_fmap_ext.
Qed.

Lemma X6_witness :
  id <$> nodes sample_doc = str <$> (node_positions sample).*1
  ∧ length (nodes sample_doc) = length (node_positions sample)
  ∧ NoDup (id <$> nodes sample_doc)
  ∧ (∀ k, str k ∈ id <$> nodes sample_doc ↔ k ∈ (G_nodes sample).*1)
  ∧ (NoDup (G_nodes sample).*1 →
     id <$> nodes sample_doc = str <$> (G_nodes sample).*1).
Proof.
  apply (X6_one_node_per_graph_node sample sample_world (Some sample_frame)
           sample_world_after sample_doc);
    [vm_compute; reflexivity | reflexivity].
Defined.

(** ** The edges written *)

Lemma edge_loop_exact G (node_id_map : gmap Z string) :
  (∀ k, node_id_map !! k
        = if decide (k ∈ (G_nodes G).*1) then Some (str k) else None) →
  ∀ raw acc w,
    for_each (edge_body node_id_map) raw acc w
    = (Ok (acc ++ imap (edge_of w) (filter (joins G) raw)),
       mkWorld (file w) (stdout w) (entropy w)
               (drawn w + length (filter (joins G) raw))).
Proof.
  intros Hmap. induction raw as [|[u v] raw IH]; intros acc w.
  - simpl. rewrite app_nil_r, Nat.add_0_r. by destruct w.
  - cbn [for_each]. rewrite Script_bind_run.
    assert (Hguard : is_Some (node_id_map !! u) ∧ is_Some (node_id_map !! v)
                     ↔ joins G (u, v)).
    { unfold joins. simpl. rewrite !Hmap.
      destruct (decide (u ∈ (G_nodes G).*1)), (decide (v ∈ (G_nodes G).*1));
        split; intros [Hu Hv]; try done;
        try (by destruct Hu); try (by destruct Hv). }
    destruct (decide (joins G (u, v))) as [Hj|Hj].
    + rewrite filter_cons_True by done.
      unfold edge_body. rewrite decide_True by (by apply Hguard).
      destruct Hj as [Hu Hv]. simpl in Hu, Hv.
      unfold mbind, Script_bind, uniform, random, lift, getitem. simpl.
      rewrite !Hmap, !decide_True by done. simpl.
      fold (@mbind Script _). rewrite IH. simpl. f_equal.
      * f_equal. rewrite <- app_assoc. f_equal. simpl. f_equal.
        -- unfold edge_of. simpl. by rewrite Nat.add_0_r.
        -- apply imap_ext. intros i e _. unfold edge_of. simpl.
           by rewrite Nat.add_succ_r.
      * f_equal. lia.
    + rewrite filter_cons_False by done.
      unfold edge_body. rewrite decide_False by (by rewrite Hguard).
      unfold mret at 1, Script_ret at 1. apply IH.
Qed.

(** X7. The edges written are, in order, the raw edges whose two ends are
    nodes of the graph (self-loops and parallel edges included), with the
    decimal strings of the ends as 'from' and 'to'; the run draws exactly
    one random value per edge written, and writes no more edges than the
    graph has. *)
Theorem X7_edges_written G w (fr : option Frame) w' doc :
  main G w = (Ok fr, w') → file w' = Some doc →
  (λ e, (from e, to e)) <$> edges doc
  = (λ e, (str e.1, str e.2)) <$> filter (joins G) (G_edges G)
  ∧ drawn w' = (drawn w + length (edges doc))%nat
  ∧ (length (edges doc) ≤ length (G_edges G))%nat.
Proof.
  intros Hrun Hfile. apply main_run in Hrun.
  assert (Hgoal : edges doc = imap (edge_of w) (filter (joins G) (G_edges G))
                  ∧ drawn w' = (drawn w + length (edges doc))%nat).
  { destruct (node_positions G) as [|p np] eqn:Hnp.
    - destruct Hrun as [_ ->]. simpl in Hfile. injection Hfile as <-. simpl.
      assert (Hnone : filter (joins G) (G_edges G) = []).
      { destruct (filter (joins G) (G_edges G)) as [|e l] eqn:Hflt; [done|].
        assert (He : e ∈ filter (joins G) (G_edges G)) by (rewrite Hflt; left).
        apply list_elem_of_filter in He as [[Hu _] _].
        apply (node_positions_keys G) in Hu. rewrite Hnp in Hu.
        by apply elem_of_nil in Hu. }
      rewrite Hnone. simpl. split; [done|lia].
    - destruct Hrun as (f & ns & m & es & w2 & _ & Hnorm & Hnodes & Hedges & ->).
      simpl in Hfile. injection Hfile as <-. simpl.
      rewrite <- Hnp in Hnorm, Hnodes.
      pose proof (node_id_map_spec G f ns m Hnorm Hnodes) as Hmap.
      rewrite (edge_loop_exact G m Hmap) in Hedges.
      injection Hedges as <- <-. simpl. split; [done|].
      by rewrite length_imap. }
  destruct Hgoal as [Hedges Hdrawn]. split_and!; [|done|].
  - rewrite Hedges. apply list_eq. intros i.
    rewrite !list_lookup_fmap, list_lookup_imap.
    by destruct (filter (joins G) (G_edges G) !! i).
  - rewrite Hedges, length_imap. apply length_filter.
Qed.

Lemma X7_witness :
  (λ e, (from e, to e)) <$> edges sample_doc
  = (λ e, (str e.1, str e.2)) <$> filter (joins sample) (G_edges sample)
  ∧ drawn sample_world_after
    = (drawn sample_world + length (edges sample_doc))%nat
  ∧ (length (edges sample_doc) ≤ length (G_edges sample))%nat.
Proof.
  apply (X7_edges_written sample sample_world (Some sample_frame)
           sample_world_after sample_doc);
    [vm_compute; reflexivity | reflexivity].
Defined.

(** ** The coordinates written *)

Lemma enumerate_from_lookup {A} (l : list A) i (j : nat) (a : A) :
  l !! j = Some a → enumerate_from i l !! j = Some (i + Z.of_nat j, a).
Proof.
  revert i j. induction l as [|b l IH]; intros i [|j]; simpl; try done.
  - intros [= ->]. do 2 f_equal. lia.
  - intros Hj. rewrite (IH (i + 1) j Hj). do 2 f_equal. lia.
Qed.

(** The node written at a position of [node_positions]. *)
Lemma node_at G w (fr : option Frame) w' doc (i : nat) k (px py : Q) n :
  main G w = (Ok fr, w') → file w' = Some doc →
  node_positions G !! i = Some (k, (px, py)) →
  nodes doc !! i = Some n →
  ∃ f, fr = Some f ∧ normalization (node_positions G) = Ok f
       ∧ (0 < scale f)%Q
       ∧ emits f (Z.of_nat i, (k, (px, py))) n.
Proof.
  intros Hrun Hfile Hi Hn.
  destruct (main_Ok_inv G w fr w' doc Hrun Hfile)
    as (_ & Hfr & _ & _ & _ & Hem & _).
  destruct fr as [f|]; [|by rewrite Hfr in Hi].
  exists f. split_and!; [done|done| |].
  - assert (Hne : node_positions G ≠ []) by (intros E; by rewrite E in Hi).
    destruct (normalization_spec _ Hne) as (f' & Hf' & Hpos & _).
    rewrite Hfr in Hf'. by injection Hf' as <-.
  - specialize (Hem f Hfr).
    apply (enumerate_from_lookup _ 0) in Hi.
    apply (Forall2_lookup_lr _ _ _ _ _ _ Hem Hn Hi).
Qed.

Lemma normalization_min (np : list (Z * (Q * Q))) f :
  normalization np = Ok f →
  ∃ x0 x1 y0 y1,
    x0 ∈ (λ item, item.2.1) <$> np ∧ x1 ∈ (λ item, item.2.1) <$> np
    ∧ y0 ∈ (λ item, item.2.2) <$> np ∧ y1 ∈ (λ item, item.2.2) <$> np
    ∧ min_x f = (x0 - (x1 - x0) * padding)%Q
    ∧ min_y f = (y0 - (y1 - y0) * padding)%Q.
Proof.
  unfold normalization. intros Hnorm.
  destruct (py_min ((λ item, item.2.1) <$> np)) as [x0|] eqn:Hx0; [|done].
  destruct (py_max ((λ item, item.2.1) <$> np)) as [x1|] eqn:Hx1; [|done].
  destruct (py_min ((λ item, item.2.2) <$> np)) as [y0|] eqn:Hy0; [|done].
  destruct (py_max ((λ item, item.2.2) <$> np)) as [y1|] eqn:Hy1; [|done].
  unfold mbind at 1 2 3 4, result_bind at 1 2 3 4 in Hnorm.
  cbn iota beta zeta in Hnorm.
  destruct (axis_scale (svg_width - 2 * margin) _) as [sx|];
    unfold mbind at 1, result_bind at 1 in Hnorm; [|discriminate Hnorm].
  destruct (axis_scale (svg_height - 2 * margin) _) as [sy|];
    unfold mbind at 1, result_bind at 1 in Hnorm; [|discriminate Hnorm].
  injection Hnorm as <-. simpl.
  apply py_min_Ok in Hx0 as [? _]. apply py_max_Ok in Hx1 as [? _].
  apply py_min_Ok in Hy0 as [? _]. apply py_max_Ok in Hy1 as [? _].
  by exists x0, x1, y0, y1.
Qed.

(** X9. When all nodes share one raw 'x', every node is written with
    [x = 25.00], whatever the scale; likewise for 'y'.  In particular the
    only node of a one-node graph is written at (25.00, 25.00) with the
    label "A". *)
Theorem X9_flat_axis G w (fr : option Frame) w' doc :
  main G w = (Ok fr, w') → file w' = Some doc →
  ((∀ p q, p ∈ node_positions G → q ∈ node_positions G →
           (p.2.1 == q.2.1)%Q) →
   Forall (λ n, x n = 2500 # 100) (nodes doc))
  ∧ ((∀ p q, p ∈ node_positions G → q ∈ node_positions G →
             (p.2.2 == q.2.2)%Q) →
     Forall (λ n, y n = 2500 # 100) (nodes doc))
  ∧ (∀ k pos, node_positions G = [(k, pos)] →
              nodes doc = [mkNode (str k) (2500 # 100) (2500 # 100) [65]]).
Proof.
  intros Hrun Hfile.
  assert (Hx : (∀ p q, p ∈ node_positions G → q ∈ node_positions G →
                       (p.2.1 == q.2.1)%Q) →
               Forall (λ n, x n = 2500 # 100) (nodes doc)).
  { intros Hflat. apply Forall_lookup. intros i n Hn.
    destruct (main_Ok_inv G w fr w' doc Hrun Hfile)
      as (_ & _ & _ & Hids & _).
    assert (Hlen : length (nodes doc) = length (node_positions G)).
    { apply (f_equal length) in Hids. by rewrite !length_fmap in Hids. }
    destruct (lookup_lt_is_Some_2 (node_positions G) i) as [[k [px py]] Hi].
    { rewrite <- Hlen. by apply lookup_lt_Some in Hn. }
    destruct (node_at G w fr w' doc i k px py n Hrun Hfile Hi Hn)
      as (f & _ & Hf & _ & _ & -> & _).
    destruct (normalization_min _ f Hf)
      as (x0 & x1 & _ & _ & Hx0 & Hx1 & _ & _ & -> & _).
    apply list_elem_of_fmap in Hx0 as (p0 & -> & Hp0).
    apply list_elem_of_fmap in Hx1 as (p1 & -> & Hp1).
    apply list_elem_of_lookup_2 in Hi.
    pose proof (Hflat _ _ Hp0 Hi) as H0. pose proof (Hflat _ _ Hp1 Hi) as H1.
    simpl in H0, H1. apply (py_round_exact _ 2 25).
    unfold margin, padding. change (inject_Z 25) with 25%Q.
    rewrite H0, H1. ring. }
  assert (Hy : (∀ p q, p ∈ node_positions G → q ∈ node_positions G →
                       (p.2.2 == q.2.2)%Q) →
               Forall (λ n, y n = 2500 # 100) (nodes doc)).
  { intros Hflat. apply Forall_lookup. intros i n Hn.
    destruct (main_Ok_inv G w fr w' doc Hrun Hfile)
      as (_ & _ & _ & Hids & _).
    assert (Hlen : length (nodes doc) = length (node_positions G)).
    { apply (f_equal length) in Hids. by rewrite !length_fmap in Hids. }
    destruct (lookup_lt_is_Some_2 (node_positions G) i) as [[k [px py]] Hi].
    { rewrite <- Hlen. by apply lookup_lt_Some in Hn. }
    destruct (node_at G w fr w' doc i k px py n Hrun Hfile Hi Hn)
      as (f & _ & Hf & _ & _ & _ & -> & _).
    destruct (normalization_min _ f Hf)
      as (_ & _ & y0 & y1 & _ & _ & Hy0 & Hy1 & _ & ->).
    apply list_elem_of_fmap in Hy0 as (p0 & -> & Hp0).
    apply list_elem_of_fmap in Hy1 as (p1 & -> & Hp1).
    apply list_elem_of_lookup_2 in Hi.
    pose proof (Hflat _ _ Hp0 Hi) as H0. pose proof (Hflat _ _ Hp1 Hi) as H1.
    simpl in H0, H1. apply (py_round_exact _ 2 25).
    unfold margin, padding. change (inject_Z 25) with 25%Q.
    rewrite H0, H1. ring. }
  split_and!; [done|done|].
  intros k [px py] Hone.
  assert (Hflatx : ∀ p q, p ∈ node_positions G → q ∈ node_positions G →
                          (p.2.1 == q.2.1)%Q).
  { rewrite Hone. intros p q ->%list_elem_of_singleton
      ->%list_elem_of_singleton. reflexivity. }
  assert (Hflaty : ∀ p q, p ∈ node_positions G → q ∈ node_positions G →
                          (p.2.2 == q.2.2)%Q).
  { rewrite Hone. intros p q ->%list_elem_of_singleton
      ->%list_elem_of_singleton. reflexivity. }
  specialize (Hx Hflatx). specialize (Hy Hflaty).
  destruct (main_Ok_inv G w fr w' doc Hrun Hfile)
    as (_ & _ & _ & Hids & _).
  rewrite Hone in Hids. simpl in Hids.
  destruct (nodes doc) as [|n [|n' ns]] eqn:Hns; try discriminate Hids.
  injection Hids as Hid.
  assert (Hn : nodes doc !! 0%nat = Some n) by (by rewrite Hns).
  assert (Hi : node_positions G !! 0%nat = Some (k, (px, py)))
    by (by rewrite Hone).
  destruct (node_at G w fr w' doc 0 k px py n Hrun Hfile Hi Hn)
    as (f & _ & _ & _ & _ & _ & _ & Hl).
  apply Forall_cons in Hx as [Hxn _]. apply Forall_cons in Hy as [Hyn _].
  change (label_of 0) with (Ok [65] : result pystr) in Hl.
  injection Hl as Hl. destruct n as [nid nx ny nl]. simpl in *.
  by subst.
Qed.

Lemma X9_witness :
  ((∀ p q, p ∈ node_positions single → q ∈ node_positions single →
           (p.2.1 == q.2.1)%Q) →
   Forall (λ n, x n = 2500 # 100) (nodes single_doc))
  ∧ ((∀ p q, p ∈ node_positions single → q ∈ node_positions single →
             (p.2.2 == q.2.2)%Q) →
     Forall (λ n, y n = 2500 # 100) (nodes single_doc))
  ∧ (∀ k pos, node_positions single = [(k, pos)] →
              nodes single_doc
              = [mkNode (str k) (2500 # 100) (2500 # 100) [65]]).
Proof.
  apply (X9_flat_axis single sample_world (Some single_frame)
           single_world_after single_doc);
    [vm_compute; reflexivity | reflexivity].
Defined.

(** ** Outcomes of a run *)

Lemma main_raise G w (e : exn) w' :
  main G w = (Raise e, w') → w' = after_banner G w.
Proof.
  unfold main. rewrite Script_bind_run. unfold print at 1. cbn iota beta.
  rewrite Script_bind_run. unfold print at 1. cbn iota beta.
  cbn [file stdout entropy drawn]. fold (after_banner G w).
  cbn zeta. rewrite Script_bind_run.
  destruct (node_positions G) as [|p np] eqn:Hnp.
  - unfold mret at 1, Script_ret at 1.
    unfold mbind, Script_bind, mret, Script_ret, print, dump. simpl.
    intros Hx. discriminate Hx.
  - rewrite Script_bind_run. unfold convert. rewrite Script_bind_run.
    unfold lift at 1.
    destruct (normalization (p :: np)) as [f|e0] eqn:Hnorm;
      [|simpl; by intros [= _ <-]].
    rewrite Script_bind_run. unfold lift at 1.
    destruct (for_each (node_body f) (enumerate (p :: np)) ([], ∅))
      as [[nodes node_id_map]|e0] eqn:Hnodes;
      [|simpl; by intros [= _ <-]].
    rewrite Script_bind_run.
    destruct (edge_loop_spec node_id_map (G_edges G) (after_banner G w))
      as (edges & w2 & -> & _).
    unfold mbind, Script_bind, mret, Script_ret, print, dump. simpl.
    intros Hx. discriminate Hx.
Qed.

(** X10. A run either ends normally or raises [ValueError] from [chr]; it
    raises exactly when [node_positions] has more than 28965248 entries.
    When it raises, the file is untouched, no random value was drawn and
    only the first two lines were printed.  When it ends normally the file
    holds the new document, six lines were printed, the counts being the
    lengths of the lists written, and the frame was computed exactly when
    the graph has a node. *)
Theorem X10_run_outcomes G w :
  match main G w with
  | (Ok fr, w') =>
      Z.of_nat (length (node_positions G)) ≤ 28965248
      ∧ (fr = None ↔ G_nodes G = [])
      ∧ ∃ doc, file w' = Some doc
               ∧ stdout w' = stdout w
                   ++ [FetchingOSM;
                       NetworkHas (length (G_nodes G)) (length (G_edges G));
                       Created (length (nodes doc)) (length (edges doc));
                       SavedTo; NodeCount (length (nodes doc));
                       EdgeCount (length (edges doc))]
  | (Raise e, w') =>
      e = ValueError
      ∧ 28965248 < Z.of_nat (length (node_positions G))
      ∧ file w' = file w ∧ drawn w' = drawn w
      ∧ stdout w' = stdout w
          ++ [FetchingOSM;
              NetworkHas (length (G_nodes G)) (length (G_edges G))]
  end.
Proof.
  pose proof (main_spec G w) as Hspec.
  destruct (main G w) as [[fr|e] w'] eqn:Hrun.
  - destruct Hspec as (ns & es & Hfile & _ & Hfr & Hlen & _).
    split; [exact Hlen|]. split.
    + destruct (length_node_positions G) as [_ Hne]. destruct fr as [f|].
      * split; [done|]. intros HG. unfold node_positions in Hfr.
        by rewrite HG in Hfr.
      * split; [|done]. intros _.
        destruct (G_nodes G) as [|g gs] eqn:HG; [done|].
        by destruct Hne.
    + exists (mkDocument ns es). split; [done|].
      apply main_run in Hrun.
      destruct (node_positions G) as [|p np].
      * destruct Hrun as [_ ->]. simpl in *. injection Hfile as <- <-.
        simpl. by rewrite <- !app_assoc.
      * destruct Hrun as (f & ns' & m & es' & w2 & _ & _ & _ & Hedges & ->).
        simpl in Hfile. injection Hfile as <- <-.
        destruct (edge_loop_spec m (G_edges G) (after_banner G w))
          as (es2 & w3 & Hrun2 & _ & Hs & _).
        rewrite Hedges in Hrun2. injection Hrun2 as <- <-.
        simpl. rewrite Hs. simpl. by rewrite <- !app_assoc.
  - destruct Hspec as (-> & Hlen & _). apply main_raise in Hrun as ->.
    simpl. split_and!; try done. by rewrite <- app_assoc.
Qed.

(** ** Labels *)

Lemma label_of_inj idx idx' s :
  0 ≤ idx → 0 ≤ idx' →
  label_of idx = Ok s → label_of idx' = Ok s → idx = idx'.
Proof.
  intros H0 H0' Hl Hl'.
  pose proof (label_of_cases idx H0) as Hc. rewrite Hl in Hc.
  pose proof (label_of_cases idx' H0') as Hc'. rewrite Hl' in Hc'.
  destruct (label_of_Ok idx) as (s1 & Hs1 & Hone & Htwo); [lia|].
  destruct (label_of_Ok idx') as (s2 & Hs2 & Hone' & Htwo'); [lia|].
  rewrite Hl in Hs1. injection Hs1 as <-.
  rewrite Hl' in Hs2. injection Hs2 as <-.
  destruct (decide (idx < 26)) as [Hlt|Hge];
    destruct (decide (idx' < 26)) as [Hlt'|Hge'].
  - rewrite (Hone Hlt) in Hone'. specialize (Hone' Hlt').
    injection Hone'. lia.
  - rewrite (Hone Hlt) in Htwo'. by specialize (Htwo' ltac:(lia)).
  - rewrite (Hone' Hlt') in Htwo. by specialize (Htwo ltac:(lia)).
  - rewrite Htwo in Htwo' by lia. specialize (Htwo' ltac:(lia)).
    injection Htwo' as Hd Hm.
    rewrite (Z.div_mod idx 26), (Z.div_mod idx' 26) by lia. lia.
Qed.

(** X11. Distinct indices never get the same label, so the labels of the
    nodes written by a run are pairwise distinct. *)
Theorem X11_labels_distinct :
  (∀ idx idx' s, 0 ≤ idx → 0 ≤ idx' →
                 label_of idx = Ok s → label_of idx' = Ok s → idx = idx')
  ∧ (∀ G w (fr : option Frame) w' doc,
       main G w = (Ok fr, w') → file w' = Some doc →
       NoDup (label <$> nodes doc)).
Proof.
  split; [apply label_of_inj|].
  intros G w fr w' doc Hrun Hfile.
  destruct (main_Ok_inv G w fr w' doc Hrun Hfile)
    as (_ & Hfr & _ & Hids & _ & Hem & _).
  assert (Hlab : ∀ (i : nat) s, (label <$> nodes doc) !! i = Some s →
                                label_of (Z.of_nat i) = Ok s).
  { intros i s Hi. rewrite list_lookup_fmap in Hi.
    destruct (nodes doc !! i) as [n|] eqn:Hn; [|done].
    injection Hi as <-. destruct fr as [f|].
    - specialize (Hem f Hfr).
      destruct (Forall2_lookup_l _ _ _ _ _ Hem Hn) as ([idx it] & Hit & He).
      apply enumerate_from_lookup_inv in Hit as ->.
      destruct it as [k [px py]]. by destruct He as (_ & _ & _ & Hl).
    - rewrite Hfr in Hids. apply fmap_nil_inv in Hids.
      by rewrite Hids in Hn. }
  apply NoDup_alt. intros i j s Hi Hj.
  apply Hlab in Hi. apply Hlab in Hj.
  assert (Heq : Z.of_nat i = Z.of_nat j)
    by (apply (label_of_inj _ _ s); [lia|lia|done|done]).
  lia.
Qed.

Lemma X11_witness :
  NoDup (label <$> nodes sample_doc).
Proof.
  apply (proj2 X11_labels_distinct sample sample_world (Some sample_frame)
           sample_world_after sample_doc);
    [vm_compute; reflexivity | reflexivity].
Defined.

(** X12. The labels run through A..Z and then AA, AB, ..., AZ, BA, ..., ZZ
    without a gap: index [b] below 26 gets the letter number [b], and
    index [26 * (a + 1) + b] gets the letters number [a] and [b]. *)
Theorem X12_two_letter_labels a b :
  0 ≤ a < 26 → 0 ≤ b < 26 →
  label_of b = Ok [65 + b]
  ∧ label_of (26 * (a + 1) + b) = Ok [65 + a; 65 + b].
Proof.
  intros Ha Hb. split.
  - destruct (label_of_Ok b) as (s & -> & Hone & _);
      [unfold max_labelled; lia|]. by rewrite Hone by lia.
  - destruct (label_of_Ok (26 * (a + 1) + b)) as (s & -> & _ & Htwo);
      [unfold max_labelled; lia|].
    rewrite Htwo by lia.
    assert (Hd : (26 * (a + 1) + b) `div` 26 = a + 1).
    { symmetry. apply (Z.div_unique _ _ _ b); lia. }
    assert (Hm : (26 * (a + 1) + b) `mod` 26 = b).
    { symmetry. apply (Z.mod_unique _ _ (a + 1)); lia. }
    rewrite Hd, Hm. do 3 f_equal. lia.
Qed.

Lemma X12_witness :
  label_of 25 = Ok [65 + 25]
  ∧ label_of (26 * (0 + 1) + 25) = Ok [65 + 0; 65 + 25].
Proof.
  apply (X12_two_letter_labels 0 25); lia.
Defined.

End FetcherMore.

(** * Further properties of the two scripts in sequence *)

Module PipelineMore.
Import FetcherFacts FilterFacts FetcherMore.

Lemma fetcher_writes G w (fr : option Fetcher.Frame) w1 :
  Fetcher.main G w = (Ok fr, w1) → ∃ doc, file w1 = Some doc.
Proof.
  intros Hrun. pose proof (main_spec G w) as Hspec. rewrite Hrun in Hspec.
  destruct Hspec as (ns & es & Hf & _). eauto.
Qed.

(** X14. Run on the file the fetcher wrote, the filter ends normally
    exactly when the decimal string of some node id of the graph is one of
    the ten reference ids; otherwise it raises [ValueError] and leaves the
    fetcher's output and the rest of the process environment as they
    are. *)
Theorem X14_filter_after_fetcher G w (fr : option Fetcher.Frame) w1 :
  Fetcher.main G w = (Ok fr, w1) →
  ((∃ k, k ∈ (Fetcher.G_nodes G).*1 ∧ str k ∈ Filter.ref_nodes) →
   ∃ w2, Filter.main w1 = (Ok (), w2))
  ∧ ((∀ k, k ∈ (Fetcher.G_nodes G).*1 → str k ∉ Filter.ref_nodes) →
     Filter.main w1 = (Raise ValueError, w1)).
Proof.
  intros Hrun. destruct (fetcher_writes G w fr w1 Hrun) as [doc Hfile].
  destruct (main_Ok_inv G w fr w1 doc Hrun Hfile)
    as (_ & _ & _ & Hids & _).
  destruct (node_positions_keys G) as [_ Hiff].
  assert (Hid : ∀ s, s ∈ id <$> nodes doc
                     ↔ ∃ k, k ∈ (Fetcher.G_nodes G).*1 ∧ s = str k).
  { intros s. rewrite Hids, list_elem_of_fmap. split.
    - intros ([k pos] & -> & Hin). exists k. split; [|done].
      apply Hiff, list_elem_of_fmap. by exists (k, pos).
    - intros (k & Hk & ->). apply Hiff in Hk.
      apply list_elem_of_fmap in Hk as ([k' pos] & -> & Hin).
      by exists (k', pos). }
  split.
  - intros (k & Hk & Href).
    assert (Hs : str k ∈ id <$> nodes doc) by (apply Hid; eauto).
    apply list_elem_of_fmap in Hs as (n & Hn & Hin).
    destruct (filter_network_Ok doc) as (min_x & _ & Hok).
    { exists n. split; [done|]. by rewrite <- Hn. }
    eexists. by apply (main_Ok w1 doc min_x _ Hfile Hok).
  - intros Hnone. apply (main_Raise w1 doc ValueError Hfile).
    apply filter_network_Raise. intros n Hn Href.
    assert (Hs : id n ∈ id <$> nodes doc) by (by apply list_elem_of_fmap_2).
    apply Hid in Hs as (k & Hk & Heq). rewrite Heq in Href.
    by apply (Hnone k).
Qed.

Lemma X14_witness :
  ((∃ k, k ∈ (Fetcher.G_nodes Fetcher.sample).*1
         ∧ str k ∈ Filter.ref_nodes) →
   ∃ w2, Filter.main Fetcher.sample_world_after = (Ok (), w2))
  ∧ ((∀ k, k ∈ (Fetcher.G_nodes Fetcher.sample).*1 →
           str k ∉ Filter.ref_nodes) →
     Filter.main Fetcher.sample_world_after
     = (Raise ValueError, Fetcher.sample_world_after)).
Proof.
  apply (X14_filter_after_fetcher Fetcher.sample Fetcher.sample_world
           (Some Fetcher.sample_frame) Fetcher.sample_world_after).
  vm_compute. reflexivity.
Defined.

Lemma sublist_fmap {A B} (f : A → B) (l1 l2 : list A) :
  sublist l1 l2 → sublist (f <$> l1) (f <$> l2).
Proof. induction 1; simpl; by constructor. Qed.

Lemma Forall_sublist {A} (P : A → Prop) (l1 l2 : list A) :
  sublist l1 l2 → Forall P l2 → Forall P l1.
Proof.
  intros Hsub Hall. apply Forall_forall. intros a Ha.
  rewrite Forall_forall in Hall. apply Hall. by eapply elem_of_sublist.
Qed.

(** X15. When the fetcher and then the filter end normally, the document
    the filter leaves is cut out of the one the fetcher wrote: its nodes
    and edges are sublists of the fetcher's, so the ids are still pairwise
    distinct, no edge dangles, and, the generator returning values in
    [0, 1), every weight is in [1, 20]; the filter draws no random
    value. *)
Theorem X15_filter_keeps_fetcher_invariants G w (fr : option Fetcher.Frame)
    w1 w2 :
  (∀ i, (0 <= entropy w i < 1)%Q) →
  Fetcher.main G w = (Ok fr, w1) →
  Filter.main w1 = (Ok (), w2) →
  ∃ doc out,
    file w1 = Some doc ∧ file w2 = Some out
    ∧ sublist (nodes out) (nodes doc)
    ∧ sublist (edges out) (edges doc)
    ∧ NoDup (id <$> nodes out)
    ∧ no_dangling out
    ∧ Forall (λ e, (1 <= weight e <= 20)%Q) (edges out)
    ∧ drawn w2 = drawn w1.
Proof.
  intros Hrng Hfetch Hfilter.
  destruct (fetcher_writes G w fr w1 Hfetch) as [doc Hfile].
  destruct (main_Ok_inv G w fr w1 doc Hfetch Hfile)
    as (_ & _ & _ & Hids & Hok & _ & Hedges).
  destruct (main_inv w1 w2 Hfilter) as (data & min_x & out & Hf & Hn & Hf2).
  rewrite Hfile in Hf. injection Hf as <-.
  rewrite (main_Ok w1 doc min_x out Hfile Hn) in Hfilter.
  injection Hfilter as <-.
  apply filter_network_inv in Hn as [_ ->].
  assert (Hsn : sublist (Filter.nodes_to_keep min_x doc) (nodes doc))
    by apply sublist_filter.
  assert (Hse : sublist (Filter.edges_to_keep min_x doc) (edges doc))
    by apply sublist_filter.
  exists doc, (Filter.filtered_data min_x doc). simpl.
  split_and!; try done.
  - apply (sublist_NoDup _ (id <$> nodes doc)); [|by apply sublist_fmap].
    assert (Hids' : id <$> nodes doc
                    = str <$> (Fetcher.node_positions G).*1).
    { rewrite Hids. by rewrite <- list_fmap_compose. }
    rewrite Hids'. destruct (node_positions_keys G) as [Hnd _].
    by apply (@NoDup_fmap_2 _ _ str str_inj).
  - unfold no_dangling. apply Forall_forall. intros e He. simpl in *.
    apply elem_of_edges_to_keep in He as (_ & Hfrom & Hto).
    unfold Filter.node_ids_to_keep in *.
    by rewrite !elem_of_list_to_set in Hfrom, Hto.
  - apply (Forall_sublist _ _ _ Hse).
    eapply Forall_impl; [exact Hedges|]. intros e (_ & _ & [i ->]).
    specialize (Hrng i). split.
    + apply (py_round_ge _ 1 1). change (inject_Z 1) with 1%Q. lra.
    + apply (py_round_le _ 1 20). change (inject_Z 20) with 20%Q. lra.
Qed.

Lemma X15_witness :
  ∃ doc out,
    file Pipeline.athens_fetched = Some doc
    ∧ file Pipeline.athens_filtered = Some out
    ∧ sublist (nodes out) (nodes doc)
    ∧ sublist (edges out) (edges doc)
    ∧ NoDup (id <$> nodes out)
    ∧ no_dangling out
    ∧ Forall (λ e, (1 <= weight e <= 20)%Q) (edges out)
    ∧ drawn Pipeline.athens_filtered = drawn Pipeline.athens_fetched.
Proof.
  apply (X15_filter_keeps_fetcher_invariants Pipeline.athens
           Fetcher.sample_world (Some Pipeline.athens_frame)
           Pipeline.athens_fetched Pipeline.athens_filtered).
  - intros i. simpl. unfold Qle, Qlt. simpl.
    pose proof (Z.mod_pos_bound (Z.of_nat i) 7 eq_refl). lia.
  - vm_compute. reflexivity.
  - vm_compute. reflexivity.
Defined.

End PipelineMore.

(** * Binary64 rounding *)

Module IEEEFacts.
Import IEEE.

Implicit Types (q r : Q) (e k : Z) (a b : double).

Lemma pow2_pos e : (0 < 2 ^ e)%Q.
Proof. by apply Qpower_0_lt. Qed.

Lemma pow2_add e1 e2 : (2 ^ (e1 + e2) == 2 ^ e1 * 2 ^ e2)%Q.
Proof. by apply Qpower_plus. Qed.

Lemma pow2_le e1 e2 : e1 ≤ e2 → (2 ^ e1 <= 2 ^ e2)%Q.
Proof. intros H. by apply Qpower_le_compat_l. Qed.

Lemma pow2_lt e1 e2 : e1 < e2 → (2 ^ e1 < 2 ^ e2)%Q.
Proof. intros H. by apply Qpower_lt_compat_l. Qed.

Lemma pow2_inject (n : Z) : 0 ≤ n → (2 ^ n == inject_Z (2 ^ n))%Q.
Proof. intros H. symmetry. by apply (Zpower_Qpower 2 n). Qed.

Lemma pow2_succ e : (2 ^ (e + 1) == 2 * 2 ^ e)%Q.
Proof. rewrite pow2_add. change (2 ^ 1)%Q with 2%Q. ring. Qed.

Lemma inject_Z_lt_pow2 (n a : Z) : 0 ≤ a → n < 2 ^ a → (inject_Z n < 2 ^ a)%Q.
Proof.
  intros Ha Hn. rewrite (pow2_inject a Ha). by rewrite <- Zlt_Qlt.
Qed.

Lemma pow2_le_inject_Z (n a : Z) : 0 ≤ a → 2 ^ a ≤ n → (2 ^ a <= inject_Z n)%Q.
Proof.
  intros Ha Hn. rewrite (pow2_inject a Ha). by rewrite <- Zle_Qle.
Qed.

(** [ilog2 q] is the binary exponent of a positive rational. *)
Lemma ilog2_spec q :
  (0 < q)%Q → (2 ^ ilog2 q <= q)%Q ∧ (q < 2 ^ (ilog2 q + 1))%Q.
Proof.
  intros Hq. destruct q as [n d].
  assert (Hn : 0 < n) by (unfold Qlt in Hq; simpl in Hq; lia).
  set (a := Z.log2 n). set (b := Z.log2 (Z.pos d)).
  destruct (Z.log2_spec n Hn) as [Hn1 Hn2]. fold a in Hn1, Hn2.
  destruct (Z.log2_spec (Z.pos d) eq_refl) as [Hd1 Hd2]. fold b in Hd1, Hd2.
  assert (Ha : 0 ≤ a) by apply Z.log2_nonneg.
  assert (Hb : 0 ≤ b) by apply Z.log2_nonneg.
  assert (Hq' : (n # d == inject_Z n / inject_Z (Z.pos d))%Q)
    by apply Qmake_Qdiv.
  assert (Hdpos : (0 < inject_Z (Z.pos d))%Q) by (by unfold Qlt).
  assert (HnQ1 : (2 ^ a <= inject_Z n)%Q) by (by apply pow2_le_inject_Z).
  assert (HnQ2 : (inject_Z n < 2 ^ (a + 1))%Q).
  { apply inject_Z_lt_pow2; [lia|]. by rewrite <- Z.add_1_r in Hn2. }
  assert (HdQ1 : (2 ^ b <= inject_Z (Z.pos d))%Q)
    by (by apply pow2_le_inject_Z).
  assert (HdQ2 : (inject_Z (Z.pos d) < 2 ^ (b + 1))%Q).
  { apply inject_Z_lt_pow2; [lia|]. by rewrite <- Z.add_1_r in Hd2. }
  assert (Hlow : (2 ^ (a - b - 1) < n # d)%Q).
  { rewrite Hq'. apply Qlt_shift_div_l; [done|].
    eapply Qlt_le_trans; [|exact HnQ1].
    assert (Ha' : (2 ^ a == 2 ^ (a - b - 1) * 2 ^ (b + 1))%Q).
    { rewrite <- pow2_add. by replace (a - b - 1 + (b + 1)) with a by lia. }
    rewrite Ha'. apply Qmult_lt_l; [apply pow2_pos|done]. }
  assert (Hhigh : (n # d < 2 ^ (a - b + 1))%Q).
  { rewrite Hq'. apply Qlt_shift_div_r; [done|].
    eapply Qlt_le_trans; [exact HnQ2|].
    assert (Ha' : (2 ^ (a + 1) == 2 ^ (a - b + 1) * 2 ^ b)%Q).
    { rewrite <- pow2_add. by replace (a - b + 1 + b) with (a + 1) by lia. }
    rewrite Ha'. apply Qmult_le_l; [apply pow2_pos|done]. }
  unfold ilog2. cbn [Qnum Qden]. fold a b. cbv zeta.
  destruct (decide (n # d < 2 ^ (a - b))%Q) as [Hlt|Hge].
  - replace (a - b - 1 + 1) with (a - b) by lia. split; [|exact Hlt].
    by apply Qlt_le_weak.
  - split; [|exact Hhigh]. by apply Qnot_lt_le.
Qed.

Lemma ilog2_mono q1 q2 :
  (0 < q1)%Q → (q1 <= q2)%Q → ilog2 q1 ≤ ilog2 q2.
Proof.
  intros H1 H12. assert (H2 : (0 < q2)%Q) by lra.
  destruct (ilog2_spec q1 H1) as [Hl1 _].
  destruct (ilog2_spec q2 H2) as [_ Hu2].
  destruct (decide (ilog2 q1 ≤ ilog2 q2)) as [|Hgt]; [done|].
  assert (Hp : (2 ^ (ilog2 q2 + 1) <= 2 ^ ilog2 q1)%Q)
    by (apply pow2_le; lia).
  lra.
Qed.

Lemma nearest_grid q k :
  (0 < q)%Q →
  ((inject_Z k * 2 ^ ulp_exponent q <= q)%Q →
   (inject_Z k * 2 ^ ulp_exponent q <= nearest q)%Q)
  ∧ ((q <= inject_Z k * 2 ^ ulp_exponent q)%Q →
     (nearest q <= inject_Z k * 2 ^ ulp_exponent q)%Q).
Proof.
  intros Hq. unfold nearest. cbv zeta.
  set (e := ulp_exponent q). pose proof (pow2_pos e) as He. split; intros Hk.
  - apply Qmult_le_compat_r; [|lra]. rewrite <- Zle_Qle.
    apply round_half_even_ge. apply Qle_shift_div_l; [done|exact Hk].
  - apply Qmult_le_compat_r; [|lra]. rewrite <- Zle_Qle.
    apply round_half_even_le. apply Qle_shift_div_r; [done|exact Hk].
Qed.

Lemma nearest_error q :
  (nearest q - q <= 2 ^ ulp_exponent q * (1 # 2))%Q
  ∧ (q - nearest q <= 2 ^ ulp_exponent q * (1 # 2))%Q.
Proof.
  unfold nearest. cbv zeta. set (e := ulp_exponent q).
  pose proof (pow2_pos e) as He.
  destruct (round_half_even_error (q / 2 ^ e)) as [Hlo Hhi].
  set (m := inject_Z (round_half_even (q / 2 ^ e))) in *.
  assert (Hq : (q == q / 2 ^ e * 2 ^ e)%Q) by (field; lra).
  split.
  - assert (H : (m * 2 ^ e - q == (m - q / 2 ^ e) * 2 ^ e)%Q)
      by (field; lra).
    rewrite H. set (u := (2 ^ e)%Q) in *. set (v := (q / u)%Q) in *. nra.
  - assert (H : (q - m * 2 ^ e == (q / 2 ^ e - m) * 2 ^ e)%Q)
      by (field; lra).
    rewrite H. set (u := (2 ^ e)%Q) in *. set (v := (q / u)%Q) in *. nra.
Qed.

Lemma ulp_exponent_bound q :
  (0 < q)%Q →
  (2 ^ ulp_exponent q <= q * 2 ^ (-52) + 2 ^ (-1074))%Q.
Proof.
  intros Hq. unfold ulp_exponent.
  destruct (ilog2_spec q Hq) as [Hl _].
  pose proof (pow2_pos (-52)) as H52. pose proof (pow2_pos (-1074)) as H1074.
  destruct (Z.max_spec (ilog2 q) (-1022)) as [[_ ->]|[_ ->]].
  - change (-1022 - 52) with (-1074). nra.
  - replace (ilog2 q - 52) with (ilog2 q + -52) by lia.
    rewrite pow2_add. nra.
Qed.

Lemma nearest_nonneg q : (0 < q)%Q → (0 <= nearest q)%Q.
Proof.
  intros Hq. destruct (nearest_grid q 0 Hq) as [H _].
  assert (H0 : (inject_Z 0 * 2 ^ ulp_exponent q == 0)%Q) by ring.
  rewrite H0 in H. apply H. lra.
Qed.

Lemma nearest_mono q1 q2 :
  (0 < q1)%Q → (q1 <= q2)%Q → (nearest q1 <= nearest q2)%Q.
Proof.
  intros H1 H12. assert (H2 : (0 < q2)%Q) by lra.
  pose proof (ilog2_mono q1 q2 H1 H12) as HE.
  destruct (decide (ulp_exponent q1 = ulp_exponent q2)) as [Heq|Hne].
  - unfold nearest. cbv zeta. rewrite Heq.
    pose proof (pow2_pos (ulp_exponent q2)) as He.
    apply Qmult_le_compat_r; [|lra]. rewrite <- Zle_Qle.
    apply round_half_even_mono. apply Qmult_le_compat_r; [done|].
    apply Qlt_le_weak, Qinv_lt_0_compat, He.
  - assert (Hlt : ulp_exponent q1 < ulp_exponent q2
                  ∧ ulp_exponent q2 = ilog2 q2 - 52
                  ∧ ilog2 q1 + 1 ≤ ilog2 q2).
    { unfold ulp_exponent in *. lia. }
    destruct Hlt as (Hlt & He2 & HE').
    destruct (ilog2_spec q1 H1) as [_ Hu1].
    destruct (ilog2_spec q2 H2) as [Hl2 _].
    pose proof (pow2_le _ _ HE') as Hp.
    set (e1 := ulp_exponent q1) in *. set (e2 := ulp_exponent q2) in *.
    set (E2 := ilog2 q2) in *.
    assert (Hk1 : (inject_Z (2 ^ (E2 - e1)) * 2 ^ e1 == 2 ^ E2)%Q).
    { rewrite <- pow2_inject by lia. rewrite <- pow2_add.
      by replace (E2 - e1 + e1) with E2 by lia. }
    assert (Hk2 : (inject_Z (2 ^ 52) * 2 ^ e2 == 2 ^ E2)%Q).
    { rewrite <- pow2_inject by lia. rewrite <- pow2_add.
      by replace (52 + e2) with E2 by lia. }
    destruct (nearest_grid q1 (2 ^ (E2 - e1)) H1) as [_ Hup].
    destruct (nearest_grid q2 (2 ^ 52) H2) as [Hdown _].
    fold e1 in Hup. fold e2 in Hdown.
    rewrite Hk1 in Hup. rewrite Hk2 in Hdown.
    apply (Qle_trans _ (2 ^ E2)%Q); [apply Hup; lra|apply Hdown; lra].
Qed.

Lemma round_pos_cases q :
  (round_pos q = Inf_pos ∧ (2 ^ 1024 <= nearest q)%Q)
  ∨ (round_pos q = Finite (Qred (nearest q)) ∧ (nearest q < 2 ^ 1024)%Q).
Proof.
  unfold round_pos. cbv zeta.
  destruct (decide (2 ^ 1024 <= nearest q)%Q) as [H|H]; [by left|right].
  split; [done|]. by apply Qnot_le_lt.
Qed.

Lemma round_pos_mono q1 q2 :
  (0 < q1)%Q → (q1 <= q2)%Q → dle (round_pos q1) (round_pos q2).
Proof.
  intros H1 H12. pose proof (nearest_mono q1 q2 H1 H12) as Hn.
  destruct (round_pos_cases q1) as [[-> Hc1]|[-> Hc1]];
    destruct (round_pos_cases q2) as [[-> Hc2]|[-> Hc2]]; simpl; try done.
  - lra.
  - by apply Qred_le.
Qed.

Lemma round_pos_nonneg q : (0 < q)%Q → dle (Finite 0) (round_pos q).
Proof.
  intros Hq. pose proof (nearest_nonneg q Hq) as Hn.
  destruct (round_pos_cases q) as [[-> _]|[-> _]]; simpl; [done|].
  by rewrite Qred_correct.
Qed.

Lemma dle_dneg a b : dle a b → dle (dneg b) (dneg a).
Proof.
  destruct a as [p| | |], b as [q| | |]; simpl; try done.
  intros H. apply Qred_le. lra.
Qed.

Lemma dle_trans a b c : dle a b → dle b c → dle a c.
Proof.
  destruct a as [p| | |], b as [q| | |], c as [r| | |]; simpl; try done.
  apply Qle_trans.
Qed.

Lemma round_double_0 q : (q == 0)%Q → round_double q = Finite 0.
Proof.
  intros Hq. unfold round_double.
  destruct (decide (0 < q)%Q); [lra|]. destruct (decide (q < 0)%Q); [lra|done].
Qed.

Lemma round_double_sign q :
  ((0 <= q)%Q → dle (Finite 0) (round_double q))
  ∧ ((q <= 0)%Q → dle (round_double q) (Finite 0)).
Proof.
  unfold round_double.
  destruct (decide (0 < q)%Q) as [Hp|Hnp]; [|destruct (decide (q < 0)%Q)
                                                as [Hn|Hnn]].
  - split; [intros _; by apply round_pos_nonneg|lra].
  - split; [lra|intros _].
    assert (Hq : (0 < - q)%Q) by lra.
    apply (dle_dneg (Finite 0) _ (round_pos_nonneg _ Hq)).
  - split; intros _; simpl; lra.
Qed.

(** Rounding to nearest is monotone. *)
Lemma round_double_mono q1 q2 :
  (q1 <= q2)%Q → dle (round_double q1) (round_double q2).
Proof.
  intros H12.
  destruct (decide (0 < q1)%Q) as [Hp1|Hnp1].
  - unfold round_double. rewrite !decide_True by lra.
    by apply round_pos_mono.
  - destruct (decide (q2 < 0)%Q) as [Hn2|Hnn2].
    + unfold round_double.
      destruct (decide (0 < q1)%Q); [lra|]. destruct (decide (0 < q2)%Q); [lra|].
      rewrite !decide_True by lra.
      apply dle_dneg, round_pos_mono; lra.
    + apply (dle_trans _ (Finite 0)).
      * apply round_double_sign. lra.
      * apply round_double_sign. lra.
Qed.

Lemma round_double_not_nan q : round_double q ≠ NaN.
Proof.
  unfold round_double. repeat case_decide; try done.
  - by destruct (round_pos_cases q) as [[-> _]|[-> _]].
  - by destruct (round_pos_cases (- q)) as [[-> _]|[-> _]].
Qed.

(** A value between two values that round to finite doubles rounds to a
    finite double between them. *)
Lemma round_double_between q (lo hi lo' hi' : Q) :
  (lo <= q <= hi)%Q →
  round_double lo = Finite lo' → round_double hi = Finite hi' →
  ∃ r, round_double q = Finite r ∧ (lo' <= r <= hi')%Q.
Proof.
  intros [Hlo Hhi] Hrlo Hrhi.
  pose proof (round_double_mono lo q Hlo) as H1.
  pose proof (round_double_mono q hi Hhi) as H2.
  rewrite Hrlo in H1. rewrite Hrhi in H2.
  destruct (round_double q) as [r| | |]; simpl in *; try done.
  by exists r.
Qed.

(** An upper bound on the rounded value, and on the exact one when the
    rounding overflows. *)
Lemma round_double_upper q :
  (0 < q)%Q →
  match round_double q with
  | Finite r =>
      (0 <= r)%Q ∧ (r < 2 ^ 1024)%Q
      ∧ (r <= q * (1 + 2 ^ (-53)) + 2 ^ (-1075))%Q
  | Inf_pos => (2 ^ 1024 <= q * (1 + 2 ^ (-53)) + 2 ^ (-1075))%Q
  | _ => False
  end.
Proof.
  intros Hq. unfold round_double. rewrite decide_True by done.
  pose proof (nearest_nonneg q Hq) as Hn.
  destruct (nearest_error q) as [He _].
  pose proof (ulp_exponent_bound q Hq) as Hu.
  assert (H53 : (2 ^ (-52) * (1 # 2) == 2 ^ (-53))%Q) by reflexivity.
  assert (H1075 : (2 ^ (-1074) * (1 # 2) == 2 ^ (-1075))%Q) by reflexivity.
  assert (Hbound : (nearest q <= q * (1 + 2 ^ (-53)) + 2 ^ (-1075))%Q).
  { rewrite <- H53, <- H1075.
    set (u := (2 ^ ulp_exponent q)%Q) in *.
    set (a := (2 ^ (-52))%Q) in *. set (b := (2 ^ (-1074))%Q) in *. nra. }
  destruct (round_pos_cases q) as [[-> Hc]|[-> Hc]].
  - lra.
  - rewrite Qred_correct. by split_and!.
Qed.

Lemma round_double_lt_max q r :
  round_double q = Finite r → (r < 2 ^ 1024)%Q.
Proof.
  intros Hr. destruct (decide (0 < q)%Q) as [Hp|Hnp].
  - pose proof (round_double_upper q Hp) as H. rewrite Hr in H. tauto.
  - assert (Hle : dle (round_double q) (Finite 0))
      by (apply round_double_sign; lra).
    rewrite Hr in Hle. simpl in Hle. pose proof (pow2_pos 1024). lra.
Qed.

End IEEEFacts.

(** ** Lines 43-85 in binary64 *)

Module FetcherIEEEFacts.
Import IEEE IEEEFacts FetcherIEEE.

Lemma dsub_Finite_inv a b r :
  dsub a b = Finite r →
  ∃ p q, a = Finite p ∧ b = Finite q ∧ round_double (p - q) = Finite r.
Proof. destruct a, b; simpl; try discriminate; eauto. Qed.

Lemma dadd_Finite_inv a b r :
  dadd a b = Finite r →
  ∃ p q, a = Finite p ∧ b = Finite q ∧ round_double (p + q) = Finite r.
Proof. destruct a, b; simpl; try discriminate; eauto. Qed.

Lemma inf_of_sign_not_Finite s r : inf_of_sign s ≠ Finite r.
Proof.
  unfold inf_of_sign. destruct (decide (0 < s)); [discriminate|].
  destruct (decide (s < 0)); discriminate.
Qed.

Lemma dmul_Finite_inv a b r :
  dmul a b = Finite r →
  ∃ p q, a = Finite p ∧ b = Finite q ∧ round_double (p * q) = Finite r.
Proof.
  destruct a, b; simpl; try discriminate; eauto;
    intros H; exfalso; exact (inf_of_sign_not_Finite _ _ H).
Qed.

Lemma dle_refl a : finite a → dle a a.
Proof. destruct a; simpl; try tauto. intros _. apply Qle_refl. Qed.

Lemma min2_cases a b : min2 a b = a ∨ min2 a b = b.
Proof. unfold min2. destruct (dlt b a); auto. Qed.

Lemma max2_cases a b : max2 a b = a ∨ max2 a b = b.
Proof. unfold max2. destruct (dlt a b); auto. Qed.

Lemma min2_le a b :
  finite a → finite b → dle (min2 a b) a ∧ dle (min2 a b) b.
Proof.
  destruct a as [p| | |], b as [q| | |]; simpl; try tauto. intros _ _.
  unfold min2. simpl. destruct (bool_decide_reflect (q < p)%Q) as [H|H]; simpl.
  - split; [apply Qlt_le_weak, H | apply Qle_refl].
  - split; [apply Qle_refl | apply Qnot_lt_le, H].
Qed.

Lemma max2_ge a b :
  finite a → finite b → dle a (max2 a b) ∧ dle b (max2 a b).
Proof.
  destruct a as [p| | |], b as [q| | |]; simpl; try tauto. intros _ _.
  unfold max2. simpl. destruct (bool_decide_reflect (p < q)%Q) as [H|H]; simpl.
  - split; [apply Qlt_le_weak, H | apply Qle_refl].
  - split; [apply Qle_refl | apply Qnot_lt_le, H].
Qed.

Lemma foldl_min2_double l a :
  Forall finite (a :: l) →
  foldl min2 a l ∈ a :: l ∧ Forall (dle (foldl min2 a l)) (a :: l).
Proof.
  revert a. induction l as [|b l IH]; intros a Hf.
  - simpl. split; [left|]. constructor; [|constructor].
    apply dle_refl. by inversion Hf.
  - inversion Hf as [|? ? Ha Hbl]; subst. inversion Hbl as [|? ? Hb Hl]; subst.
    assert (Hm : finite (min2 a b)) by (destruct (min2_cases a b) as [->| ->]; done).
    destruct (IH (min2 a b)) as [Hin Hall]; [by constructor|].
    destruct (min2_le a b Ha Hb) as [Hma Hmb].
    cbn [foldl]. inversion Hall as [|? ? Hm0 Hl0]; subst. split.
    + apply elem_of_cons in Hin as [Hin|Hin].
      * rewrite Hin. destruct (min2_cases a b) as [->| ->];
          [left | right; left].
      * right; right; exact Hin.
    + constructor; [eapply dle_trans; eauto|].
      constructor; [eapply dle_trans; eauto|]. exact Hl0.
Qed.

Lemma foldl_max2_double l a :
  Forall finite (a :: l) →
  foldl max2 a l ∈ a :: l ∧ Forall (λ x, dle x (foldl max2 a l)) (a :: l).
Proof.
  revert a. induction l as [|b l IH]; intros a Hf.
  - simpl. split; [left|]. constructor; [|constructor].
    apply dle_refl. by inversion Hf.
  - inversion Hf as [|? ? Ha Hbl]; subst. inversion Hbl as [|? ? Hb Hl]; subst.
    assert (Hm : finite (max2 a b)) by (destruct (max2_cases a b) as [->| ->]; done).
    destruct (IH (max2 a b)) as [Hin Hall]; [by constructor|].
    destruct (max2_ge a b Ha Hb) as [Hma Hmb].
    cbn [foldl]. inversion Hall as [|? ? Hm0 Hl0]; subst. split.
    + apply elem_of_cons in Hin as [Hin|Hin].
      * rewrite Hin. destruct (max2_cases a b) as [->| ->];
          [left | right; left].
      * right; right; exact Hin.
    + constructor; [eapply dle_trans; eauto|].
      constructor; [eapply dle_trans; eauto|]. exact Hl0.
Qed.

Lemma py_min_spec l :
  l ≠ [] → Forall finite l →
  ∃ m, py_min l = Ok m ∧ m ∈ l ∧ Forall (dle m) l.
Proof.
  destruct l as [|a l]; [done|]. intros _ Hf.
  exists (foldl min2 a l). split; [done|]. by apply foldl_min2_double.
Qed.

Lemma py_max_spec l :
  l ≠ [] → Forall finite l →
  ∃ m, py_max l = Ok m ∧ m ∈ l ∧ Forall (λ x, dle x m) l.
Proof.
  destruct l as [|a l]; [done|]. intros _ Hf.
  exists (foldl max2 a l). split; [done|]. by apply foldl_max2_double.
Qed.

Lemma representable_finite a : representable a → finite a.
Proof. by destruct a. Qed.

Lemma axis_scale_total extent range : ∃ s, axis_scale extent range = Ok s.
Proof.
  unfold axis_scale. destruct (dlt (of_int 0) range) eqn:Hlt; [|by eexists].
  destruct range as [q| | |]; simpl in *; try discriminate; [|by eexists].
  apply bool_decide_eq_true in Hlt.
  destruct (decide (q == 0)%Q) as [H0|_]; [|by eexists].
  rewrite H0 in Hlt. exfalso. revert Hlt. apply Qlt_irrefl.
Qed.

(** What line 66 (67) yields on a finite, non-negative range: the fallback, or
    a quotient that the range bounds once multiplied back. *)
Lemma axis_scale_bound extent R sx :
  0 < extent → (0 <= R)%Q →
  axis_scale extent (Finite R) = Ok sx →
  match sx with
  | Finite s' =>
      (0 <= s')%Q ∧ (s' < 2 ^ 1024)%Q
      ∧ ((0 < R)%Q →
         (s' * R <= inject_Z extent * (1 + 2 ^ (-53)) + R * 2 ^ (-1075))%Q)
  | Inf_pos =>
      (0 < R)%Q
      ∧ (2 ^ 1024 * R <= inject_Z extent * (1 + 2 ^ (-53)) + R * 2 ^ (-1075))%Q
  | _ => False
  end.
Proof.
  intros He HR. unfold axis_scale, of_int. cbn [dlt].
  destruct (bool_decide_reflect (inject_Z 0 < R)%Q) as [Hpos|Hnpos];
    change (inject_Z 0) with 0%Q in *.
  - cbn [ddiv]. destruct (decide (R == 0)%Q) as [H0|Hn0];
      [rewrite H0 in Hpos; exfalso; revert Hpos; apply Qlt_irrefl|].
    intros [= <-].
    assert (Hq : (0 < inject_Z extent / R)%Q).
    { apply Qlt_shift_div_l; [exact Hpos|]. rewrite Qmult_0_l.
      change 0%Q with (inject_Z 0). rewrite <- Zlt_Qlt. exact He. }
    assert (HqR : (inject_Z extent / R * R == inject_Z extent)%Q)
      by (field; exact Hn0).
    pose proof (round_double_upper _ Hq) as Hup.
    set (T := (inject_Z extent / R)%Q) in *.
    set (E := inject_Z extent) in *.
    set (u := (2 ^ (-53))%Q) in *. set (v := (2 ^ (-1075))%Q) in *.
    assert (Hr : ((T * (1 + u) + v) * R == E * (1 + u) + R * v)%Q)
      by (rewrite <- HqR; ring).
    destruct (round_double T) as [s'| | |]; try done.
    + destruct Hup as (H1 & H2 & H3). split; [exact H1|]. split; [exact H2|].
      intros _. rewrite <- Hr. apply Qmult_le_compat_r; [exact H3|].
      apply Qlt_le_weak, Hpos.
    + split; [exact Hpos|]. rewrite <- Hr.
      apply Qmult_le_compat_r; [exact Hup|]. apply Qlt_le_weak, Hpos.
  - intros Heq. injection Heq as <-. change (inject_Z 1) with 1%Q.
    split; [lra|]. split; [|intros Hpos; contradiction].
    apply (Qle_lt_trans _ (2 ^ 0)%Q); [apply Qle_refl|].
    apply pow2_lt. lia.
Qed.

(** The smaller of two values of lines 66-67, when it is finite. *)
Lemma min2_Finite sx sy s :
  scale_like sx → scale_like sy → min2 sx sy = Finite s →
  ((0 <= s)%Q ∧ (s < 2 ^ 1024)%Q) ∧ below s sx ∧ below s sy.
Proof.
  unfold min2.
  destruct sx as [p| | |], sy as [q| | |]; cbn [scale_like dlt below];
    try tauto; intros Hx Hy.
  - destruct (bool_decide_reflect (q < p)%Q) as [H|H]; intros [= <-].
    + split; [exact Hy|]. split; [apply Qlt_le_weak, H | apply Qle_refl].
    + split; [exact Hx|]. split; [apply Qle_refl | apply Qnot_lt_le, H].
  - intros [= <-]. split; [exact Hx|]. split; [apply Qle_refl | exact I].
  - intros [= <-]. split; [exact Hy|]. split; [exact I | apply Qle_refl].
  - discriminate.
Qed.

Lemma axis_scale_like extent range sx :
  0 < extent → axis_scale extent range = Ok sx → scale_like sx.
Proof.
  intros He Hs. destruct range as [R| | |].
  - destruct (Qlt_le_dec 0 R) as [Hpos|Hnpos].
    + pose proof (axis_scale_bound _ _ _ He (Qlt_le_weak _ _ Hpos) Hs) as H.
      destruct sx; cbn [scale_like]; tauto.
    + unfold axis_scale, of_int in Hs. cbn [dlt] in Hs.
      rewrite bool_decide_eq_false_2 in Hs
        by (change (inject_Z 0) with 0%Q; lra).
      injection Hs as <-. change (inject_Z 1) with 1%Q. split; [lra|].
      apply (Qle_lt_trans _ (2 ^ 0)%Q); [apply Qle_refl|]. apply pow2_lt. lia.
  - unfold axis_scale, of_int in Hs. cbn [dlt ddiv] in Hs.
    injection Hs as <-. change (inject_Z 0) with 0%Q. split; [lra|].
    apply pow2_pos.
  - unfold axis_scale, of_int in Hs. cbn [dlt] in Hs.
    injection Hs as <-. change (inject_Z 1) with 1%Q. split; [lra|].
    apply (Qle_lt_trans _ (2 ^ 0)%Q); [apply Qle_refl|]. apply pow2_lt. lia.
  - unfold axis_scale, of_int in Hs. cbn [dlt] in Hs.
    injection Hs as <-. change (inject_Z 1) with 1%Q. split; [lra|].
    apply (Qle_lt_trans _ (2 ^ 0)%Q); [apply Qle_refl|]. apply pow2_lt. lia.
Qed.

Lemma scale_bound extent R sx s :
  0 < extent → (0 <= R)%Q →
  axis_scale extent (Finite R) = Ok sx →
  (0 <= s)%Q → (s < 2 ^ 1024)%Q → below s sx → (0 < R)%Q →
  (s * R <= inject_Z extent * (1 + 2 ^ (-53)) + R * 2 ^ (-1075))%Q.
Proof.
  intros He HR Hs H0 Hmax Hbelow Hpos.
  pose proof (axis_scale_bound _ _ _ He HR Hs) as H.
  destruct sx as [s'| | |]; cbn [below] in Hbelow; try done.
  - destruct H as (_ & _ & H). specialize (H Hpos).
    apply (Qle_trans _ (s' * R)%Q); [|exact H].
    apply Qmult_le_compat_r; [exact Hbelow | exact HR].
  - destruct H as [_ H]. apply (Qle_trans _ (2 ^ 1024 * R)%Q); [|exact H].
    apply Qmult_le_compat_r; [apply Qlt_le_weak, Hmax | exact HR].
Qed.

(** The constants through which an in-range product passes on its way to the
    written value, for the two extents of the script. *)
Lemma canvas_constants extent :
  extent = 700 ∨ extent = 500 →
  (inject_Z extent * (1 + 2 ^ (-53)) + 2 ^ 1024 * 2 ^ (-1075) <= cap extent)%Q
  ∧ round_double (cap extent) = Finite (cap_B extent)
  ∧ round_double (inject_Z margin + cap_B extent) = Finite (cap_C extent)
  ∧ round_double (py_round (cap_C extent) 2) = Finite (cap_D extent)
  ∧ (cap_D extent <= inject_Z (margin + extent))%Q
  ∧ round_double (inject_Z margin) = Finite floor_L1
  ∧ round_double (py_round floor_L1 2) = Finite floor_L2
  ∧ (inject_Z margin <= floor_L2)%Q.
Proof.
  intros [-> | ->]; repeat split;
    solve [ vm_compute; reflexivity
          | apply Qle_bool_imp_le; vm_compute; reflexivity ].
Qed.

(** One axis: lines 51-59, 66-68, 73 (74) and 84 (85) for a raw value [x]
    between the least [a] and the greatest [b] of its axis. *)
Lemma written_within extent (a b x lo range sx : double) (s : Q) :
  extent = 700 ∨ extent = 500 →
  representable a → representable b → representable x →
  dle a x → dle x b →
  lo = dsub a (dmul (dsub b a) padding) →
  range = dsub (dadd b (dmul (dsub b a) padding)) lo →
  finite range →
  axis_scale extent range = Ok sx →
  (0 <= s)%Q → (s < 2 ^ 1024)%Q → below s sx →
  within (inject_Z margin) (inject_Z (margin + extent))
         (written lo (Finite s) x).
Proof.
  intros Hext Ha Hb Hx Hax Hxb Hlo Hrange Hfin Hsx Hs0 Hsmax Hbelow.
  assert (He : 0 < extent) by (destruct Hext; lia).
  destruct (canvas_constants extent Hext)
    as (Hcap & HB & HC & HD & HDle & HL1 & HL2 & HL2le).
  destruct a as [qa| | |]; [|exact (False_ind _ Ha)..].
  destruct b as [qb| | |]; [|exact (False_ind _ Hb)..].
  destruct x as [qx| | |]; [|exact (False_ind _ Hx)..].
  destruct Ha as (ra & Hra & Hraq). destruct Hb as (rb & Hrb & Hrbq).
  cbn [dle] in Hax, Hxb.
  destruct range as [R| | |]; [|exact (False_ind _ Hfin)..].
  symmetry in Hrange.
  apply dsub_Finite_inv in Hrange as (M & m & HM & Hm & HR).
  rewrite Hm in Hlo. symmetry in Hlo.
  apply dsub_Finite_inv in Hlo as (qa' & t0 & Hqa' & Ht & Hmr).
  injection Hqa' as <-.
  apply dadd_Finite_inv in HM as (qb' & t0' & Hqb' & Ht' & HMr).
  injection Hqb' as <-. rewrite Ht in Ht'. injection Ht' as <-.
  apply dmul_Finite_inv in Ht as (r0 & pq & Hr0 & Hpq & Htr).
  cbn [dsub] in Hr0.
  (* the padding is not negative *)
  assert (H0r0 : (0 <= r0)%Q).
  { destruct (round_double_sign (qb - qa)) as [H _].
    rewrite Hr0 in H. apply H. lra. }
  assert (H0pq : (0 <= pq)%Q).
  { unfold padding in Hpq. injection Hpq as <-. done. }
  assert (H0t : (0 <= t0)%Q).
  { destruct (round_double_sign (r0 * pq)) as [H _].
    rewrite Htr in H. apply H. apply Qmult_le_0_compat; done. }
  (* the padded bounds enclose the raw ones *)
  assert (Hmqa : (m <= qa)%Q).
  { pose proof (round_double_mono (qa - t0) qa) as H.
    rewrite Hmr, Hra in H. cbn [dle] in H. rewrite <- Hraq. apply H. lra. }
  assert (HMqb : (qb <= M)%Q).
  { pose proof (round_double_mono qb (qb + t0)) as H.
    rewrite HMr, Hrb in H. cbn [dle] in H. rewrite <- Hrbq. apply H. lra. }
  assert (H0R : (0 <= R)%Q).
  { destruct (round_double_sign (M - m)) as [H _].
    rewrite HR in H. apply H. lra. }
  (* [x - min_x] *)
  destruct (round_double_between (qx - m) 0 (M - m) 0 R) as (d0 & Hd & Hd0 & HdR);
    [lra | apply round_double_0; reflexivity | exact HR |].
  (* [(x - min_x) * scale] *)
  assert (Hprod : (0 <= d0 * s <= cap extent)%Q).
  { split; [apply Qmult_le_0_compat; done|].
    eapply Qle_trans; [|exact Hcap].
    destruct (Qlt_le_dec 0 R) as [Hpos|Hnpos].
    - pose proof (scale_bound _ _ _ _ He H0R Hsx Hs0 Hsmax Hbelow Hpos) as Hsb.
      pose proof (round_double_lt_max _ _ HR) as HRmax.
      set (E := (inject_Z extent * (1 + 2 ^ (-53)))%Q) in *.
      set (v := (2 ^ (-1075))%Q) in *. set (top := (2 ^ 1024)%Q) in *.
      assert (Hv : (0 <= v)%Q) by (apply Qlt_le_weak, pow2_pos).
      assert (H1 : (d0 * s <= s * R)%Q).
      { rewrite (Qmult_comm s R). apply Qmult_le_compat_r; done. }
      assert (H2 : (R * v <= top * v)%Q).
      { apply Qmult_le_compat_r; [apply Qlt_le_weak, HRmax | exact Hv]. }
      lra.
    - assert (Hd00 : (d0 == 0)%Q) by lra. rewrite Hd00, Qmult_0_l.
      apply Qle_trans with (inject_Z extent * 1)%Q.
      + rewrite Qmult_1_r. change 0%Q with (inject_Z 0). rewrite <- Zle_Qle. lia.
      + apply Qle_trans with (inject_Z extent * (1 + 2 ^ (-53)))%Q.
        * apply Qmult_le_l; [change 0%Q with (inject_Z 0); rewrite <- Zlt_Qlt; lia|].
          pose proof (pow2_pos (-53)). lra.
        * pose proof (pow2_pos 1024). pose proof (pow2_pos (-1075)).
          assert (0 <= 2 ^ 1024 * 2 ^ (-1075))%Q
            by (apply Qmult_le_0_compat; apply Qlt_le_weak; done).
          lra. }
  destruct (round_double_between (d0 * s) 0 (cap extent) 0 (cap_B extent))
    as (p0 & Hp & Hp0 & HpB);
    [exact Hprod | apply round_double_0; reflexivity | exact HB |].
  (* [margin + ...] *)
  destruct (round_double_between (inject_Z margin + p0) (inject_Z margin)
              (inject_Z margin + cap_B extent) floor_L1 (cap_C extent))
    as (n0 & Hn & HnL & HnC); [lra | exact HL1 | exact HC |].
  (* [round(..., 2)] *)
  destruct (round_double_between (py_round n0 2) (py_round floor_L1 2)
              (py_round (cap_C extent) 2) floor_L2 (cap_D extent))
    as (w & Hw & HwL & HwD);
    [split; apply py_round_mono; done | exact HL2 | exact HD |].
  unfold written, of_int. rewrite Hm. cbn [dsub]. rewrite Hd. cbn [dmul]. rewrite Hp.
  cbn [dadd]. rewrite Hn. cbn [round_to]. rewrite Hw. cbn [within].
  split; [apply (Qle_trans _ floor_L2); done | apply (Qle_trans _ (cap_D extent)); done].
Qed.

Lemma min2_scale_like sx sy :
  scale_like sx → scale_like sy → scale_like (min2 sx sy).
Proof. intros Hx Hy. by destruct (min2_cases sx sy) as [-> | ->]. Qed.

(** Lines 44-68 never raise on a non-empty dictionary, whatever the
    doubles. *)
Lemma normalization_eq (np : list (Z * (double * double))) a b c d sx sy :
  py_min ((λ item, item.2.1) <$> np) = Ok a →
  py_max ((λ item, item.2.1) <$> np) = Ok b →
  py_min ((λ item, item.2.2) <$> np) = Ok c →
  py_max ((λ item, item.2.2) <$> np) = Ok d →
  axis_scale (svg_width - 2 * margin)
    (dsub (dadd b (dmul (dsub b a) padding))
          (dsub a (dmul (dsub b a) padding))) = Ok sx →
  axis_scale (svg_height - 2 * margin)
    (dsub (dadd d (dmul (dsub d c) padding))
          (dsub c (dmul (dsub d c) padding))) = Ok sy →
  normalization np
  = Ok (mkFrame (dsub a (dmul (dsub b a) padding))
                (dsub c (dmul (dsub d c) padding))
                (dsub (dadd b (dmul (dsub b a) padding))
                      (dsub a (dmul (dsub b a) padding)))
                (dsub (dadd d (dmul (dsub d c) padding))
                      (dsub c (dmul (dsub d c) padding)))
                (min2 sx sy)).
Proof.
  intros Ha Hb Hc Hd Hsx Hsy. unfold normalization.
  rewrite Ha, Hb, Hc, Hd. cbn [mbind result_bind].
  rewrite Hsx, Hsy. reflexivity.
Qed.

Lemma py_min_double_Ok (l : list double) : l ≠ [] → ∃ m, py_min l = Ok m.
Proof. destruct l; [done|]. by eexists. Qed.

Lemma py_max_double_Ok (l : list double) : l ≠ [] → ∃ m, py_max l = Ok m.
Proof. destruct l; [done|]. by eexists. Qed.

Lemma normalization_total (np : list (Z * (double * double))) :
  np ≠ [] → ∃ fr, normalization np = Ok fr ∧ scale_like (scale fr).
Proof.
  intros Hne.
  destruct (py_min_double_Ok ((λ item, item.2.1) <$> np)) as [a Ha];
    [by destruct np|].
  destruct (py_max_double_Ok ((λ item, item.2.1) <$> np)) as [b Hb];
    [by destruct np|].
  destruct (py_min_double_Ok ((λ item, item.2.2) <$> np)) as [c Hc];
    [by destruct np|].
  destruct (py_max_double_Ok ((λ item, item.2.2) <$> np)) as [d Hd];
    [by destruct np|].
  destruct (axis_scale_total (svg_width - 2 * margin)
              (dsub (dadd b (dmul (dsub b a) padding))
                    (dsub a (dmul (dsub b a) padding)))) as [sx Hsx].
  destruct (axis_scale_total (svg_height - 2 * margin)
              (dsub (dadd d (dmul (dsub d c) padding))
                    (dsub c (dmul (dsub d c) padding)))) as [sy Hsy].
  eexists. split; [exact (normalization_eq _ _ _ _ _ _ _ Ha Hb Hc Hd Hsx Hsy)|].
  cbn [scale]. apply min2_scale_like.
  - exact (axis_scale_like (svg_width - 2 * margin) _ _ eq_refl Hsx).
  - exact (axis_scale_like (svg_height - 2 * margin) _ _ eq_refl Hsy).
Qed.

Lemma Forall_representable_finite l : Forall representable l → Forall finite l.
Proof.
  intros H. eapply Forall_impl; [exact H|]. exact representable_finite.
Qed.

(** The bound of [written_within] on both axes of every node. *)
Lemma frame_spec (np : list (Z * (double * double))) :
  np ≠ [] →
  Forall (λ item, representable item.2.1 ∧ representable item.2.2) np →
  ∃ fr,
    normalization np = Ok fr
    ∧ (finite (x_range fr) → finite (y_range fr) → finite (scale fr) →
       ∀ k x y, (k, (x, y)) ∈ np →
         within 25 725 (written (min_x fr) (scale fr) x)
         ∧ within 25 525 (written (min_y fr) (scale fr) y)).
Proof.
  intros Hne Hrep.
  set (xs := (λ item : Z * (double * double), item.2.1) <$> np).
  set (ys := (λ item : Z * (double * double), item.2.2) <$> np).
  assert (Hxs : Forall representable xs).
  { apply Forall_fmap. eapply Forall_impl; [exact Hrep|]. by intros ? [? ?]. }
  assert (Hys : Forall representable ys).
  { apply Forall_fmap. eapply Forall_impl; [exact Hrep|]. by intros ? [? ?]. }
  assert (Hxne : xs ≠ []) by (by destruct np).
  assert (Hyne : ys ≠ []) by (by destruct np).
  destruct (py_min_spec xs Hxne (Forall_representable_finite _ Hxs))
    as (a & Ha & Hain & Hale).
  destruct (py_max_spec xs Hxne (Forall_representable_finite _ Hxs))
    as (b & Hb & Hbin & Hble).
  destruct (py_min_spec ys Hyne (Forall_representable_finite _ Hys))
    as (c & Hc & Hcin & Hcle).
  destruct (py_max_spec ys Hyne (Forall_representable_finite _ Hys))
    as (d & Hd & Hdin & Hdle).
  destruct (axis_scale_total (svg_width - 2 * margin)
              (dsub (dadd b (dmul (dsub b a) padding))
                    (dsub a (dmul (dsub b a) padding)))) as [sx Hsx].
  destruct (axis_scale_total (svg_height - 2 * margin)
              (dsub (dadd d (dmul (dsub d c) padding))
                    (dsub c (dmul (dsub d c) padding)))) as [sy Hsy].
  pose proof (normalization_eq np _ _ _ _ _ _ Ha Hb Hc Hd Hsx Hsy) as Hnorm.
  eexists. split; [exact Hnorm|].
  cbn [x_range y_range scale min_x min_y]. intros Hfx Hfy Hfs.
  destruct (min2 sx sy) as [s| | |] eqn:Hmin; [|exact (False_ind _ Hfs)..].
  destruct (min2_Finite sx sy s) as ((Hs0 & Hsmax) & Hbx & Hby);
    [exact (axis_scale_like (svg_width - 2 * margin) _ _ eq_refl Hsx)
    |exact (axis_scale_like (svg_height - 2 * margin) _ _ eq_refl Hsy)
    |exact Hmin|].
  rewrite Forall_forall in Hxs, Hys, Hale, Hble, Hcle, Hdle.
  intros k x y Hin.
  assert (Hxin : x ∈ xs) by (apply list_elem_of_fmap; by exists (k, (x, y))).
  assert (Hyin : y ∈ ys) by (apply list_elem_of_fmap; by exists (k, (x, y))).
  split.
  - eapply (written_within (svg_width - 2 * margin) a b x);
      [ by left | by apply Hxs | by apply Hxs | by apply Hxs
      | by apply Hale | by apply Hble | reflexivity | reflexivity
      | exact Hfx | exact Hsx | exact Hs0 | exact Hsmax | exact Hbx ].
  - eapply (written_within (svg_height - 2 * margin) c d y);
      [ by right | by apply Hys | by apply Hys | by apply Hys
      | by apply Hcle | by apply Hdle | reflexivity | reflexivity
      | exact Hfy | exact Hsy | exact Hs0 | exact Hsmax | exact Hby ].
Qed.

(** *** Order *)

Lemma round_double_le q1 q2 r1 r2 :
  round_double q1 = Finite r1 → round_double q2 = Finite r2 →
  (q1 <= q2)%Q → (r1 <= r2)%Q.
Proof.
  intros H1 H2 Hle. pose proof (round_double_mono q1 q2 Hle) as H.
  by rewrite H1, H2 in H.
Qed.

Lemma round_to_Finite_inv a ndigits w :
  round_to a ndigits = Finite w →
  ∃ q, a = Finite q ∧ round_double (py_round q ndigits) = Finite w.
Proof. destruct a; simpl; try discriminate. eauto. Qed.

(** Lines 73 and 84 do not swap two raw values. *)
Lemma written_mono lo (s : Q) x1 x2 w1 w2 :
  (0 <= s)%Q → dle x1 x2 →
  written lo (Finite s) x1 = Finite w1 →
  written lo (Finite s) x2 = Finite w2 →
  (w1 <= w2)%Q.
Proof.
  intros Hs Hle H1 H2. unfold written, of_int in H1, H2.
  apply round_to_Finite_inv in H1 as (n1 & H1 & Hw1).
  apply round_to_Finite_inv in H2 as (n2 & H2 & Hw2).
  apply dadd_Finite_inv in H1 as (m1 & p1 & Hm1 & H1 & Hn1).
  apply dadd_Finite_inv in H2 as (m2 & p2 & Hm2 & H2 & Hn2).
  injection Hm1 as <-. injection Hm2 as <-.
  apply dmul_Finite_inv in H1 as (d1 & s1 & H1 & Hs1 & Hp1).
  apply dmul_Finite_inv in H2 as (d2 & s2 & H2 & Hs2 & Hp2).
  injection Hs1 as <-. injection Hs2 as <-.
  apply dsub_Finite_inv in H1 as (q1 & l1 & -> & Hl1 & Hd1).
  apply dsub_Finite_inv in H2 as (q2 & l2 & -> & Hl2 & Hd2).
  rewrite Hl1 in Hl2. injection Hl2 as <-. cbn [dle] in Hle.
  assert (Hd : (d1 <= d2)%Q)
    by (apply (round_double_le _ _ _ _ Hd1 Hd2); lra).
  assert (Hp : (p1 <= p2)%Q).
  { apply (round_double_le _ _ _ _ Hp1 Hp2).
    apply Qmult_le_compat_r; done. }
  assert (Hn : (n1 <= n2)%Q)
    by (apply (round_double_le _ _ _ _ Hn1 Hn2); lra).
  apply (round_double_le _ _ _ _ Hw1 Hw2). by apply py_round_mono.
Qed.

Lemma coordinates_lookup (np : list (Z * (double * double))) fr out i k x y :
  normalization np = Ok fr → coordinates np = Ok out →
  np !! i = Some (k, (x, y)) →
  out !! i = Some (written (min_x fr) (scale fr) x,
                   written (min_y fr) (scale fr) y).
Proof.
  intros Hnorm Hc Hi. unfold coordinates in Hc. rewrite Hnorm in Hc.
  cbn [mbind result_bind mret result_ret] in Hc. injection Hc as <-.
  by rewrite list_lookup_fmap, Hi.
Qed.

Lemma within_Finite lo hi a : within lo hi a → ∃ q, a = Finite q.
Proof. destruct a; simpl; try tauto. eauto. Qed.

(** *** The scale *)

Lemma normalization_inv (np : list (Z * (double * double))) :
  np ≠ [] →
  ∃ fr sx sy,
    normalization np = Ok fr
    ∧ axis_scale (svg_width - 2 * margin) (x_range fr) = Ok sx
    ∧ axis_scale (svg_height - 2 * margin) (y_range fr) = Ok sy
    ∧ scale fr = min2 sx sy.
Proof.
  intros Hne.
  destruct (py_min_double_Ok ((λ item, item.2.1) <$> np)) as [a Ha];
    [by destruct np|].
  destruct (py_max_double_Ok ((λ item, item.2.1) <$> np)) as [b Hb];
    [by destruct np|].
  destruct (py_min_double_Ok ((λ item, item.2.2) <$> np)) as [c Hc];
    [by destruct np|].
  destruct (py_max_double_Ok ((λ item, item.2.2) <$> np)) as [d Hd];
    [by destruct np|].
  destruct (axis_scale_total (svg_width - 2 * margin)
              (dsub (dadd b (dmul (dsub b a) padding))
                    (dsub a (dmul (dsub b a) padding)))) as [sx Hsx].
  destruct (axis_scale_total (svg_height - 2 * margin)
              (dsub (dadd d (dmul (dsub d c) padding))
                    (dsub c (dmul (dsub d c) padding)))) as [sy Hsy].
  eexists. exists sx, sy.
  split; [exact (normalization_eq _ _ _ _ _ _ _ Ha Hb Hc Hd Hsx Hsy)|].
  cbn [x_range y_range scale]. done.
Qed.

(** X16. Lines 44-68 end normally on every non-empty dictionary of doubles,
    and the scale they leave is never NaN and never negative: it is a finite
    double that is not negative, or [inf]. When the scale and the padded
    range of an axis are finite and that range is positive, the scaled range
    exceeds the 700 (500) units between the margins by at most the rounding
    of one division. *)
Theorem X16_scale_fits (np : list (Z * (double * double))) :
  np ≠ [] →
  ∃ fr,
    normalization np = Ok fr
    ∧ scale_like (scale fr)
    ∧ (∀ s R, scale fr = Finite s → x_range fr = Finite R → (0 < R)%Q →
         (s * R <= 700 * (1 + 2 ^ (-53)) + R * 2 ^ (-1075))%Q)
    ∧ (∀ s R, scale fr = Finite s → y_range fr = Finite R → (0 < R)%Q →
         (s * R <= 500 * (1 + 2 ^ (-53)) + R * 2 ^ (-1075))%Q).
Proof.
  intros Hne.
  destruct (normalization_inv np Hne) as (fr & sx & sy & Hnorm & Hsx & Hsy & Hs).
  assert (Hlx : scale_like sx)
    by exact (axis_scale_like (svg_width - 2 * margin) _ _ eq_refl Hsx).
  assert (Hly : scale_like sy)
    by exact (axis_scale_like (svg_height - 2 * margin) _ _ eq_refl Hsy).
  exists fr. split; [exact Hnorm|].
  split; [rewrite Hs; by apply min2_scale_like|].
  split; intros s R Hfs HR Hpos; rewrite Hs in Hfs;
    destruct (min2_Finite sx sy s Hlx Hly Hfs) as ((Hs0 & Hsmax) & Hbx & Hby).
  - rewrite HR in Hsx.
    exact (scale_bound (svg_width - 2 * margin) R sx s eq_refl
             (Qlt_le_weak _ _ Hpos) Hsx Hs0 Hsmax Hbx Hpos).
  - rewrite HR in Hsy.
    exact (scale_bound (svg_height - 2 * margin) R sy s eq_refl
             (Qlt_le_weak _ _ Hpos) Hsy Hs0 Hsmax Hby Hpos).
Qed.

Lemma X16_witness :
  ∃ fr,
    normalization sample = Ok fr
    ∧ scale_like (scale fr)
    ∧ (∀ s R, scale fr = Finite s → x_range fr = Finite R → (0 < R)%Q →
         (s * R <= 700 * (1 + 2 ^ (-53)) + R * 2 ^ (-1075))%Q)
    ∧ (∀ s R, scale fr = Finite s → y_range fr = Finite R → (0 < R)%Q →
         (s * R <= 500 * (1 + 2 ^ (-53)) + R * 2 ^ (-1075))%Q).
Proof. apply (X16_scale_fits sample). discriminate. Defined.

(** C4, as the code has it. On two nodes whose raw coordinates are 0 and the
    least positive double, the padded ranges are finite and positive but
    line 66 overflows: scale is [inf], and the coordinates written are NaN
    and [inf], not values in [25, 725] and [25, 525]. *)
Lemma C4_tiny_range :
  tiny ≠ []
  ∧ Forall (λ item, representable item.2.1 ∧ representable item.2.2) tiny
  ∧ coordinates tiny = Ok [(NaN, NaN); (Inf_pos, Inf_pos)]
  ∧ ¬ Forall (λ xy, within 25 725 xy.1 ∧ within 25 525 xy.2)
        [(NaN, NaN); (Inf_pos, Inf_pos)].
Proof.
  split; [discriminate|]. split.
  - repeat (apply List.Forall_cons; [split|]); try apply List.Forall_nil;
      cbn [snd fst representable]; eexists;
      (split; [vm_compute; reflexivity | reflexivity]).
  - split; [vm_compute; reflexivity|].
    intros H. inversion H as [|? ? [Hx _] _]. exact Hx.
Qed.

(** C4, amended. For every non-empty dictionary of finite raw coordinates,
    lines 44-68 end normally and lines 72-87 write one pair per node; when
    the padded ranges and the scale are finite, every written [x] is a
    finite double in [25, 725] and every written [y] one in [25, 525]. *)
Theorem C4_written_inside_canvas (np : list (Z * (double * double))) :
  np ≠ [] →
  Forall (λ item, representable item.2.1 ∧ representable item.2.2) np →
  ∃ fr out,
    normalization np = Ok fr
    ∧ coordinates np = Ok out
    ∧ length out = length np
    ∧ (finite (x_range fr) → finite (y_range fr) → finite (scale fr) →
       Forall (λ xy, within 25 725 xy.1 ∧ within 25 525 xy.2) out).
Proof.
  intros Hne Hrep. destruct (frame_spec np Hne Hrep) as (fr & Hnorm & Hin).
  exists fr, ((λ item, (written (min_x fr) (scale fr) item.2.1,
                         written (min_y fr) (scale fr) item.2.2)) <$> np).
  split; [exact Hnorm|].
  split; [unfold coordinates; rewrite Hnorm; reflexivity|].
  split; [apply length_fmap|].
  intros Hfx Hfy Hfs. apply Forall_fmap, Forall_forall.
  intros [k [x y]] Hitem. exact (Hin Hfx Hfy Hfs k x y Hitem).
Qed.

Lemma C4_sample :
  ∃ out,
    coordinates sample = Ok out
    ∧ length out = length sample
    ∧ Forall (λ xy, within 25 725 xy.1 ∧ within 25 525 xy.2) out.
Proof.
  destruct (C4_written_inside_canvas sample) as (fr & out & Hn & Hc & Hl & H).
  - discriminate.
  - repeat (apply List.Forall_cons; [split|]); try apply List.Forall_nil;
      cbn [snd fst representable]; eexists;
      (split; [vm_compute; reflexivity | reflexivity]).
  - exists out. split; [exact Hc|]. split; [exact Hl|].
    assert (Hfr : normalization sample = Ok sample_frame)
      by (vm_compute; reflexivity).
    rewrite Hfr in Hn. injection Hn as <-. apply H; exact I.
Defined.

(** X8. Under the conditions of C4, written coordinates keep the order of
    the raw ones on each axis: of two nodes, the one with the smaller raw
    [x] ([y]) is written with the smaller or equal [x] ([y]). *)
Theorem X8_order_kept (np : list (Z * (double * double))) fr out
    (i j : nat) ki xi yi kj xj yj wxi wyi wxj wyj :
  Forall (λ item, representable item.2.1 ∧ representable item.2.2) np →
  normalization np = Ok fr →
  finite (x_range fr) → finite (y_range fr) → finite (scale fr) →
  coordinates np = Ok out →
  np !! i = Some (ki, (xi, yi)) → np !! j = Some (kj, (xj, yj)) →
  out !! i = Some (wxi, wyi) → out !! j = Some (wxj, wyj) →
  (dle xi xj → dle wxi wxj) ∧ (dle yi yj → dle wyi wyj).
Proof.
  intros Hrep Hnorm Hfx Hfy Hfs Hc Hi Hj Hoi Hoj.
  assert (Hne : np ≠ []) by (intros ->; discriminate Hi).
  destruct (frame_spec np Hne Hrep) as (fr' & Hn' & H).
  rewrite Hnorm in Hn'. injection Hn' as <-.
  specialize (H Hfx Hfy Hfs).
  destruct (H _ _ _ (list_elem_of_lookup_2 _ _ _ Hi)) as [Hwxi Hwyi].
  destruct (H _ _ _ (list_elem_of_lookup_2 _ _ _ Hj)) as [Hwxj Hwyj].
  rewrite (coordinates_lookup np fr out i ki xi yi Hnorm Hc Hi) in Hoi.
  rewrite (coordinates_lookup np fr out j kj xj yj Hnorm Hc Hj) in Hoj.
  injection Hoi as Hxi Hyi. injection Hoj as Hxj Hyj.
  rewrite Hxi in Hwxi. rewrite Hyi in Hwyi.
  rewrite Hxj in Hwxj. rewrite Hyj in Hwyj.
  destruct (normalization_total np Hne) as (fr' & Hn' & Hlike).
  rewrite Hnorm in Hn'. injection Hn' as <-.
  destruct (scale fr) as [s| | |] eqn:Hs; [|exact (False_ind _ Hfs)..].
  destruct Hlike as [Hs0 _].
  apply within_Finite in Hwxi as [qxi ->]. apply within_Finite in Hwyi as [qyi ->].
  apply within_Finite in Hwxj as [qxj ->]. apply within_Finite in Hwyj as [qyj ->].
  split; intros Hle; cbn [dle].
  - exact (written_mono _ s xi xj _ _ Hs0 Hle Hxi Hxj).
  - exact (written_mono _ s yi yj _ _ Hs0 Hle Hyi Hyj).
Qed.

Lemma X8_witness :
  (dle (Finite (1 # 2)) (Finite 2)
   → dle (fst (nth 0 sample_out (NaN, NaN))) (fst (nth 1 sample_out (NaN, NaN))))
  ∧ (dle (Finite 3) (Finite (7 # 2))
     → dle (snd (nth 0 sample_out (NaN, NaN)))
           (snd (nth 1 sample_out (NaN, NaN)))).
Proof.
  apply (X8_order_kept sample sample_frame sample_out 0 1
           5 (Finite (1 # 2)) (Finite 3) 7 (Finite 2) (Finite (7 # 2))).
  - repeat (apply List.Forall_cons; [split|]); try apply List.Forall_nil;
      cbn [snd fst representable]; eexists;
      (split; [vm_compute; reflexivity | reflexivity]).
  - vm_compute; reflexivity.
  - exact I.
  - exact I.
  - exact I.
  - vm_compute; reflexivity.
  - reflexivity.
  - reflexivity.
  - reflexivity.
  - reflexivity.
Defined.

End FetcherIEEEFacts.
